(** * NanoLog runtime/Packer.h: pack / unpack, nibble codes and the Nibbler

    A shallow embedding of [BufferUtils] from [runtime/Packer.h].

    - A [char] buffer is a [list byte]; a [char*] into it is the buffer
      together with a [Z] offset (the cursor).  [memcpy] outside the buffer
      is undefined in C and is [None] here.
    - Integers are [Z] with the wrap-around of their C type written out.
      Values of [float], [double] and [long double] are their object
      representation (the number its 4, 8 or 16 bytes make): the header
      only ever [memcpy]s them.
    - The host is little-endian, as the header requires: the object
      representation of a [w]-byte value [v] is [le_split w v]. *)

From Stdlib Require Import ZArith List Bool Lia.
From coqutil Require Import Byte Word.LittleEndianList.
Import ListNotations.
Local Open Scope Z_scope.

Module BufferUtils.

(** ** The option monad used for undefined behaviour *)

Definition bind {A B : Type} (m : option A) (k : A -> option B) : option B :=
  match m with
  | Some a => k a
  | None => None
  end.

Notation "x <- m ;; k" := (bind m (fun x => k))
  (at level 61, m at next level, right associativity).
Notation "' p <- m ;; k" := (bind m (fun x => match x with p => k end))
  (at level 61, p pattern, m at next level, right associativity).

(** ** C types handled by the header *)

Inductive ctype : Type :=
| U8 | U16 | U32 | U64        (* uint8_t .. uint64_t *)
| I32 | I64 | LL              (* int32_t, int64_t, long long int *)
| Ptr                         (* T* *)
| F32 | F64 | LDouble.        (* float, double, long double *)

Definition sizeof (T : ctype) : Z :=
  match T with
  | U8 => 1
  | U16 => 2
  | U32 | I32 | F32 => 4
  | U64 | I64 | LL | Ptr | F64 => 8
  | LDouble => 16
  end.

Definition is_signed (T : ctype) : bool :=
  match T with
  | I32 | I64 | LL => true
  | _ => false
  end.

Definition is_unsigned_integral (T : ctype) : bool :=
  match T with
  | U8 | U16 | U32 | U64 => true
  | _ => false
  end.

Definition is_floating_point (T : ctype) : bool :=
  match T with
  | F32 | F64 | LDouble => true
  | _ => false
  end.

Definition is_pointer (T : ctype) : bool :=
  match T with
  | Ptr => true
  | _ => false
  end.

(** The values of a type: the mathematical integer for the integer types,
    the address for a pointer, the object representation for [float],
    [double] and [long double]. *)
Definition in_range (T : ctype) (v : Z) : Prop :=
  if is_signed T
  then - 2 ^ (8 * sizeof T - 1) <= v < 2 ^ (8 * sizeof T - 1)
  else 0 <= v < 2 ^ (8 * sizeof T).

(** ** Fixed-width arithmetic *)

(** Reduction to [w] bits, read as an unsigned number. *)
Definition to_unsigned (w : Z) (z : Z) : Z := z mod 2 ^ w.

(** Reduction to [w] bits, read in two's complement. *)
Definition to_signed (w : Z) (z : Z) : Z :=
  let m := z mod 2 ^ w in
  if m <? 2 ^ (w - 1) then m else m - 2 ^ w.

(** [static_cast<T>(z)] for an integral or pointer-sized [T]. *)
Definition static_cast (T : ctype) (z : Z) : Z :=
  if is_signed T then to_signed (8 * sizeof T) z
  else to_unsigned (8 * sizeof T) z.

(** Unary minus on a signed [w]-bit integer; overflow (the most negative
    value) is undefined. *)
Definition neg_signed (w : Z) (z : Z) : option Z :=
  if z =? - 2 ^ (w - 1) then None else Some (- z).

Definition uint32_t (z : Z) : Z := to_unsigned 32 z.

Definition INT_MAX : Z := 2 ^ 31 - 1.

(** ** Buffers and memcpy *)

Definition buffer : Type := list byte.

Definition len (b : buffer) : Z := Z.of_nat (length b).

(** [memcpy(dst, buf + off, n)]: the [n] bytes read, when they lie inside
    the buffer. *)
Definition memcpy_from (buf : buffer) (off n : Z) : option (list byte) :=
  if (0 <=? off) && (0 <=? n) && (off + n <=? len buf)
  then Some (firstn (Z.to_nat n) (skipn (Z.to_nat off) buf))
  else None.

(** [memcpy(buf + off, src, |src|)]: the updated buffer, when the bytes
    written lie inside it. *)
Definition memcpy_to (buf : buffer) (off : Z) (src : list byte) : option buffer :=
  if (0 <=? off) && (off + len src <=? len buf)
  then Some (firstn (Z.to_nat off) buf ++ src
             ++ skipn (Z.to_nat (off + len src)) buf)
  else None.

(** [buf[off]] *)
Definition byte_at (buf : buffer) (off : Z) : option byte :=
  if 0 <=? off then nth_error buf (Z.to_nat off) else None.

(** Object representation of a value of type [T] on the little-endian host. *)
Definition object_bytes (T : ctype) (v : Z) : list byte :=
  le_split (Z.to_nat (sizeof T)) v.

(** ** TwoNibbles *)

(** [struct TwoNibbles { uint8_t first:4; uint8_t second:4; }]: with the
    x86-64 ABI the first bit-field takes the low four bits. *)
Definition first (b : byte) : Z := Z.land (byte.unsigned b) 15.
Definition second (b : byte) : Z := Z.shiftr (byte.unsigned b) 4.

(** ** pack *)

(** Result of a [pack] call: the buffer after the call, the bumped cursor
    and the returned code. *)
Definition packed : Type := (buffer * Z * Z)%type.

(** The if-chain of the unsigned [pack] template. *)
Definition numBytes (val : Z) : Z :=
  if val <? Z.shiftl 1 8 then 1
  else if val <? Z.shiftl 1 16 then 2
  else if val <? Z.shiftl 1 24 then 3
  else if val <? Z.shiftl 1 32 then 4
  else if val <? Z.shiftl 1 40 then 5
  else if val <? Z.shiftl 1 48 then 6
  else if val <? Z.shiftl 1 56 then 7
  else 8.

(** [pack<T>(char **buffer, T val)] for unsigned integral [T]: the whole
    value is stored ([sizeof(T)] bytes), the cursor moves by [numBytes]. *)
Definition pack_unsigned (T : ctype) (buf : buffer) (cur : Z) (val : Z)
  : option packed :=
  let n := numBytes val in
  buf' <- memcpy_to buf cur (object_bytes T val) ;;
  Some (buf', cur + n, n).

(** Adds 8 to the code of a nested result: [8 + pack<...>(...)]. *)
Definition plus8 (r : packed) : packed :=
  let '(buf', cur', code) := r in (buf', cur', 8 + code).

(** The tests [val >= 0 || val <= int32_t(-(1<<24))] and
    [val >= 0 || val <= int64_t(-(1LL<<56))] that guard the branch storing
    the bit pattern as it is. *)
Definition keeps_int32 (val : Z) : bool :=
  (0 <=? val) || (val <=? to_signed 32 (- Z.shiftl 1 24)).

Definition keeps_int64 (val : Z) : bool :=
  (0 <=? val) || (val <=? to_signed 64 (- Z.shiftl 1 56)).

(** [pack(char **buffer, int32_t val)] *)
Definition pack_int32 (buf : buffer) (cur : Z) (val : Z) : option packed :=
  if keeps_int32 val
  then pack_unsigned U32 buf cur (static_cast U32 val)
  else
    nval <- neg_signed 32 val ;;
    r <- pack_unsigned U32 buf cur (static_cast U32 nval) ;;
    Some (plus8 r).

(** [pack(char **buffer, int64_t val)] *)
Definition pack_int64 (buf : buffer) (cur : Z) (val : Z) : option packed :=
  if keeps_int64 val
  then pack_unsigned U64 buf cur (static_cast U64 val)
  else
    nval <- neg_signed 64 val ;;
    r <- pack_unsigned U64 buf cur (static_cast U64 nval) ;;
    Some (plus8 r).

(** [pack(char **buffer, long long int val)] *)
Definition pack_longlong (buf : buffer) (cur : Z) (val : Z) : option packed :=
  if keeps_int64 val
  then pack_unsigned U64 buf cur (static_cast U64 val)
  else
    nval <- neg_signed 64 val ;;
    r <- pack_unsigned U64 buf cur (static_cast U64 nval) ;;
    Some (plus8 r).

(** [pack(char **in, T* pointer)] *)
Definition pack_pointer (buf : buffer) (cur : Z) (pointer : Z) : option packed :=
  pack_unsigned U64 buf cur (static_cast U64 pointer).

(** [pack<T>(char **buffer, T val)] for floating-point [T]. *)
Definition pack_floating (T : ctype) (buf : buffer) (cur : Z) (val : Z)
  : option packed :=
  buf' <- memcpy_to buf cur (object_bytes T val) ;;
  Some (buf', cur + sizeof T, sizeof T).

(** Overload resolution of [pack] on the static type of the argument. *)
Definition pack (T : ctype) (buf : buffer) (cur : Z) (val : Z) : option packed :=
  match T with
  | U8 | U16 | U32 | U64 => pack_unsigned T buf cur val
  | I32 => pack_int32 buf cur val
  | I64 => pack_int64 buf cur val
  | LL => pack_longlong buf cur val
  | Ptr => pack_pointer buf cur val
  | F32 | F64 | LDouble => pack_floating T buf cur val
  end.

(** ** unpack *)

Section Decoder.

(** The value-preserving conversion of a [float] to the floating-point type
    [T] ([double] or [long double]), on object representations.  It is a
    primitive of the host, met only when [unpack<T>] is handed the code 4;
    every result below holds for any such function. *)
Variable float_to : ctype -> Z -> Z.

(** [int64_t packed = 0; memcpy(&packed, *in, n);] the accumulator after the
    copy.  Copying more than the eight bytes of [packed] is undefined. *)
Definition load_packed (buf : buffer) (cur n : Z) : option Z :=
  if n <=? 8
  then bs <- memcpy_from buf cur n ;; Some (to_signed 64 (le_combine bs))
  else None.

(** [unpack<T>(const char **in, uint8_t packResult)] for integral [T]:
    the value returned, [None] where C leaves it undefined, and the bumped
    cursor. *)
Definition unpack_integral (T : ctype) (buf : buffer) (cur : Z) (packResult : Z)
  : option Z * Z :=
  if packResult <=? 8 then
    (p <- load_packed buf cur packResult ;; Some (static_cast T p),
     cur + packResult)
  else
    let bytes := if packResult =? 0 then 16 else Z.land 15 (packResult - 8) in
    (p <- load_packed buf cur bytes ;;
     np <- neg_signed 64 p ;;
     Some (static_cast T np),
     cur + bytes).

(** [unpack<T>(const char **in, uint8_t packNibble)] for pointer [T]. *)
Definition unpack_pointer (buf : buffer) (cur : Z) (packNibble : Z)
  : option Z * Z :=
  unpack_integral U64 buf cur packNibble.

(** [unpack<T>(const char **in, uint8_t packNibble)] for floating-point [T].
    With the code [sizeof(float)] a [float] is read and converted to [T].
    Otherwise [bytes] bytes are copied into a local [T]: more than
    [sizeof(T)] overrun it and the call is undefined ([None]); fewer leave
    the value returned indeterminate. *)
Definition unpack_floating (T : ctype) (buf : buffer) (cur : Z) (packNibble : Z)
  : option (option Z * Z) :=
  if packNibble =? sizeof F32 then
    Some (bs <- memcpy_from buf cur (sizeof F32) ;;
          Some (match T with
                | F32 => le_combine bs
                | _ => float_to T (le_combine bs)
                end),
          cur + sizeof F32)
  else
    let bytes := if packNibble =? 0 then 16 else packNibble in
    if sizeof T <? bytes then None
    else
      Some (if bytes =? sizeof T
            then bs <- memcpy_from buf cur bytes ;; Some (le_combine bs)
            else None,
            cur + bytes).

(** Template selection of [unpack<T>]: the value returned ([None] where C
    leaves it undefined) and the bumped cursor, or [None] for a call that
    overruns its local. *)
Definition unpack (T : ctype) (buf : buffer) (cur : Z) (code : Z)
  : option (option Z * Z) :=
  match T with
  | Ptr => Some (unpack_pointer buf cur code)
  | F32 | F64 | LDouble => unpack_floating T buf cur code
  | _ => Some (unpack_integral T buf cur code)
  end.

(** ** getSizeOfPackedValues *)

(** One iteration of the loop body, on the two nibbles of a byte. *)
Definition add_pair (size fst_nibble snd_nibble : Z) : Z :=
  let size := uint32_t (size + (fst_nibble + snd_nibble)) in
  let size := if fst_nibble =? 0 then uint32_t (size + 16) else size in
  let size := if 8 <? fst_nibble then uint32_t (size - 8) else size in
  let size := if snd_nibble =? 0 then uint32_t (size + 16) else size in
  let size := if 8 <? snd_nibble then uint32_t (size - 8) else size in
  size.

(** The body of the trailing [if (numNibbles & 0x1)]. *)
Definition add_single (size fst_nibble : Z) : Z :=
  let size := uint32_t (size + fst_nibble) in
  let size := if fst_nibble =? 0 then uint32_t (size + 16) else size in
  let size := if 8 <? fst_nibble then uint32_t (size - 8) else size in
  size.

(** [for (uint32_t i = ...; i < numNibbles/2; ++i)], with [todo] iterations
    left. *)
Fixpoint size_loop (todo : nat) (mem : buffer) (nibbles i size : Z) : option Z :=
  match todo with
  | O => Some size
  | S todo' =>
      b <- byte_at mem (nibbles + i) ;;
      size_loop todo' mem nibbles (i + 1) (add_pair size (first b) (second b))
  end.

(** [getSizeOfPackedValues(const TwoNibbles *nibbles, uint32_t numNibbles)] *)
Definition getSizeOfPackedValues (mem : buffer) (nibbles : Z) (numNibbles : Z)
  : option Z :=
  size <- size_loop (Z.to_nat (numNibbles / 2)) mem nibbles 0 0 ;;
  if negb (Z.land numNibbles 1 =? 0) then
    b <- byte_at mem (nibbles + numNibbles / 2) ;;
    Some (add_single size (first b))
  else Some size.

(** ** Nibbler *)

Record Nibbler : Type := mkNibbler {
  nibblePosition : Z;
  onFirstNibble : bool;
  numNibbles : Z;
  currPackedValue : Z;
  endOfValues : Z
}.

(** [Nibbler(const char *nibbleStart, int numNibbles)] over the memory
    [mem].  [numNibbles + 1] is an [int] sum, the division truncates, and
    the count is converted to [uint32_t] for the size calculation. *)
Definition Nibbler_new (mem : buffer) (nibbleStart : Z) (n : Z) : option Nibbler :=
  if n + 1 <=? INT_MAX then
    size <- getSizeOfPackedValues mem nibbleStart (uint32_t n) ;;
    Some {| nibblePosition := nibbleStart;
            onFirstNibble := true;
            numNibbles := n;
            currPackedValue := nibbleStart + Z.quot (n + 1) 2;
            endOfValues := nibbleStart + Z.quot (n + 1) 2 + size |}
  else None.

(** [T getNext<T>()]: [None] when the assertion fails or the read is
    undefined, else the value and the Nibbler after the call. *)
Definition getNext (mem : buffer) (T : ctype) (nb : Nibbler)
  : option (Z * Nibbler) :=
  if currPackedValue nb <? endOfValues nb then
    b <- byte_at mem (nibblePosition nb) ;;
    let nibble := if onFirstNibble nb then first b else second b in
    '(ret, cur') <- unpack T mem (currPackedValue nb) nibble ;;
    v <- ret ;;
    Some (v, {| nibblePosition :=
                  if onFirstNibble nb then nibblePosition nb
                  else nibblePosition nb + 1;
                onFirstNibble := negb (onFirstNibble nb);
                numNibbles := numNibbles nb;
                currPackedValue := cur';
                endOfValues := endOfValues nb |})
  else None.

(** [getEndOfPackedArguments()] *)
Definition getEndOfPackedArguments (nb : Nibbler) : Z := endOfValues nb.

End Decoder.

(** * Notions used to state the properties *)

(** The byte width a nibble code stands for, as the header comment gives it:
    code 0 is a 16-byte value, codes 1..8 that many bytes, and codes above 8
    are [code - 8] bytes of a negated integer. *)
Definition nibble_width (code : Z) : Z :=
  if code =? 0 then 16 else if code <=? 8 then code else code - 8.

(** The unsigned type through which [pack] stores a [T]. *)
Definition stored_type (T : ctype) : ctype :=
  match T with
  | I32 => U32
  | I64 | LL | Ptr => U64
  | _ => T
  end.

(** Whether the signed [pack] overloads take their negating branch. *)
Definition negates (T : ctype) (v : Z) : bool :=
  is_signed T &&
  negb ((0 <=? v) || (v <=? - 2 ^ (8 * (sizeof T - 1)))).

(** The unsigned number whose bytes [pack] stores for [v]. *)
Definition stored_value (T : ctype) (v : Z) : Z :=
  match T with
  | I32 | I64 | LL =>
      if negates T v then static_cast (stored_type T) (- v)
      else static_cast (stored_type T) v
  | Ptr => static_cast U64 v
  | _ => v
  end.

(** The code [pack] returns for [v]. *)
Definition code_of (T : ctype) (v : Z) : Z :=
  if is_floating_point T then sizeof T
  else if negates T v then 8 + numBytes (stored_value T v)
  else numBytes (stored_value T v).

(** What a 4-bit field holds when it is assigned the code: its low four
    bits (16, the code of a [long double], becomes 0). *)
Definition as_nibble (code : Z) : Z := Z.land code 15.

(** The width announced by the nibble under which the code of [v] is
    kept. *)
Definition encoded_width (T : ctype) (v : Z) : Z :=
  nibble_width (as_nibble (code_of T v)).

(** The bytes of the value stream that belong to [v] once [pack] returned:
    the low [encoded_width] bytes of what it stored. *)
Definition encoded_bytes (T : ctype) (v : Z) : list byte :=
  firstn (Z.to_nat (encoded_width T v))
         (object_bytes (stored_type T) (stored_value T v)).

(** [b] is the least positive number of bytes that hold the unsigned
    number [x]. *)
Definition least_width (x b : Z) : Prop :=
  1 <= b /\ x < 2 ^ (8 * b) /\ forall b', 1 <= b' -> x < 2 ^ (8 * b') -> b <= b'.

(** The guard of the signed [pack] overload for [T]. *)
Definition keeps (T : ctype) (v : Z) : bool :=
  match T with
  | I32 => keeps_int32 v
  | I64 | LL => keeps_int64 v
  | _ => true
  end.

(** ** Runs of values *)

(** A caller packing the values [vs] one after the other into one value
    buffer and collecting the returned codes. *)
Fixpoint pack_sequence (vs : list (ctype * Z)) (buf : buffer) (cur : Z)
  : option (buffer * Z * list Z) :=
  match vs with
  | [] => Some (buf, cur, [])
  | (T, v) :: vs' =>
      '(buf1, cur1, code) <- pack T buf cur v ;;
      '(buf2, cur2, codes) <- pack_sequence vs' buf1 cur1 ;;
      Some (buf2, cur2, code :: codes)
  end.

(** The codes stored two to a byte, the earlier one in [first] (the low
    nibble); an unpaired last code leaves [second] at 0. *)
Fixpoint nibble_bytes (codes : list Z) : list byte :=
  match codes with
  | [] => []
  | [c] => [byte.of_Z (as_nibble c)]
  | c1 :: c2 :: rest =>
      byte.of_Z (Z.lor (as_nibble c1) (Z.shiftl (as_nibble c2) 4))
      :: nibble_bytes rest
  end.

(** [getNext<T>()] called once for each type of [Ts], in order. *)
Fixpoint getNext_sequence (float_to : ctype -> Z -> Z) (mem : buffer)
         (Ts : list ctype) (nb : Nibbler) : option (list Z * Nibbler) :=
  match Ts with
  | [] => Some ([], nb)
  | T :: Ts' =>
      '(v, nb1) <- getNext float_to mem T nb ;;
      '(vs, nb2) <- getNext_sequence float_to mem Ts' nb1 ;;
      Some (v :: vs, nb2)
  end.

(** The [k]-th nibble of the [TwoNibbles] array at [nibbles]. *)
Definition nibble_at (mem : buffer) (nibbles k : Z) : option Z :=
  b <- byte_at mem (nibbles + k / 2) ;;
  Some (if Z.even k then first b else second b).

Definition sum_widths (codes : list Z) : Z :=
  fold_right (fun c acc => nibble_width c + acc) 0 codes.

Definition value_in_range (tv : ctype * Z) : Prop := in_range (fst tv) (snd tv).
Definition value_code (tv : ctype * Z) : Z := code_of (fst tv) (snd tv).
Definition value_nibble (tv : ctype * Z) : Z := as_nibble (value_code tv).
Definition value_bytes (tv : ctype * Z) : list byte :=
  encoded_bytes (fst tv) (snd tv).

(** The nibbles of an array of [TwoNibbles], in the order [first],
    [second] of each byte. *)
Definition nibbles_of (bs : list byte) : list Z :=
  flat_map (fun b => [first b; second b]) bs.

(** The room a run of values takes when nothing is saved. *)
Definition sum_sizeof (vs : list (ctype * Z)) : Z :=
  fold_right (fun tv acc => sizeof (fst tv) + acc) 0 vs.

(** * Properties *)

(** ** Arithmetic of the fixed-width conversions *)

Lemma to_unsigned_small (w z : Z) :
  0 <= z < 2 ^ w -> to_unsigned w z = z.
Proof. intros H. unfold to_unsigned. apply Z.mod_small. exact H. Qed.

Lemma to_signed_small (w z : Z) :
  0 < w -> - 2 ^ (w - 1) <= z < 2 ^ (w - 1) -> to_signed w z = z.
Proof.
  intros Hw Hz. unfold to_signed.
  assert (Hp : 2 ^ w = 2 * 2 ^ (w - 1)).
  { replace w with (Z.succ (w - 1)) at 1 by lia. apply Z.pow_succ_r. lia. }
  assert (Hpos : 0 < 2 ^ (w - 1)) by (apply Z.pow_pos_nonneg; lia).
  destruct (Z_lt_le_dec z 0) as [Hneg | Hnn].
  - assert (Hm : z mod 2 ^ w = z + 2 ^ w).
    { symmetry. apply Z.mod_unique with (q := -1); lia. }
    rewrite Hm. destruct (Z.ltb_spec (z + 2 ^ w) (2 ^ (w - 1))); lia.
  - rewrite Z.mod_small by lia.
    destruct (Z.ltb_spec z (2 ^ (w - 1))); lia.
Qed.

Lemma to_signed_congr (w z : Z) :
  0 < w -> (to_signed w z) mod 2 ^ w = z mod 2 ^ w.
Proof.
  intros Hw. unfold to_signed.
  assert (Hpos : 0 < 2 ^ w) by (apply Z.pow_pos_nonneg; lia).
  destruct (Z.ltb_spec (z mod 2 ^ w) (2 ^ (w - 1))).
  - apply Z.mod_mod. lia.
  - replace (z mod 2 ^ w - 2 ^ w) with (z mod 2 ^ w + (-1) * 2 ^ w) by lia.
    rewrite Z.mod_add by lia. apply Z.mod_mod. lia.
Qed.

Lemma mod_pow2_mod_pow2 (z a b : Z) :
  0 <= a <= b -> (z mod 2 ^ b) mod 2 ^ a = z mod 2 ^ a.
Proof.
  intros H. apply Z.mod_mod_divide.
  exists (2 ^ (b - a)). rewrite <- Z.pow_add_r by lia. f_equal. lia.
Qed.

Lemma to_signed_mod (w z : Z) :
  to_signed w (z mod 2 ^ w) = to_signed w z.
Proof.
  unfold to_signed.
  now rewrite Z.mod_mod_divide by apply Z.divide_refl.
Qed.

(** Casting the 64-bit accumulator to [T] only looks at the low bits. *)
Lemma static_cast_to_signed64 (T : ctype) (z : Z) :
  is_floating_point T = false ->
  static_cast T (to_signed 64 z) = static_cast T z.
Proof.
  intros HF.
  assert (H : forall a, 0 <= a <= 64 ->
            to_signed 64 z mod 2 ^ a = z mod 2 ^ a).
  { intros a Ha.
    rewrite <- (mod_pow2_mod_pow2 (to_signed 64 z) a 64) by lia.
    rewrite to_signed_congr by lia.
    apply mod_pow2_mod_pow2. lia. }
  unfold static_cast, to_signed at 1, to_unsigned.
  destruct T; try discriminate; cbn [is_signed sizeof]; try (apply H; lia);
    unfold to_signed; rewrite H by lia; reflexivity.
Qed.

Lemma static_cast_in_range (T : ctype) (v : Z) :
  in_range T v -> static_cast T v = v.
Proof.
  unfold in_range, static_cast.
  destruct T; cbn [is_signed sizeof]; intros H;
    (apply to_signed_small; [lia | exact H]) || (apply to_unsigned_small; exact H).
Qed.

Lemma land_15_small (x : Z) : 0 <= x < 16 -> Z.land 15 x = x.
Proof.
  intros H. rewrite Z.land_comm. change 15 with (Z.ones 4).
  rewrite Z.land_ones by lia. apply Z.mod_small. exact H.
Qed.

(** ** Buffers *)

Lemma len_app (a b : buffer) : len (a ++ b) = len a + len b.
Proof. unfold len. rewrite length_app. lia. Qed.

Lemma len_nonneg (b : buffer) : 0 <= len b.
Proof. unfold len. lia. Qed.

(** A successful store splits the buffer around the bytes it replaces. *)
Lemma memcpy_to_inv (buf : buffer) (off : Z) (src : list byte) (buf' : buffer) :
  memcpy_to buf off src = Some buf' ->
  exists pre mid post,
    buf = pre ++ mid ++ post /\ buf' = pre ++ src ++ post /\
    len pre = off /\ len mid = len src.
Proof.
  unfold memcpy_to.
  destruct (Z.leb_spec 0 off) as [H0 | ]; [ | discriminate].
  destruct (Z.leb_spec (off + len src) (len buf)) as [H1 | ]; [ | discriminate].
  cbn [andb]. intros E. injection E as <-.
  pose proof (len_nonneg src) as Hs. unfold len in *.
  exists (firstn (Z.to_nat off) buf),
         (firstn (length src) (skipn (Z.to_nat off) buf)),
         (skipn (Z.to_nat (off + Z.of_nat (length src))) buf).
  repeat split.
  - replace (Z.to_nat (off + Z.of_nat (length src)))
      with (length src + Z.to_nat off)%nat by lia.
    rewrite <- skipn_skipn, firstn_skipn, firstn_skipn. reflexivity.
  - rewrite length_firstn. lia.
  - rewrite length_firstn, length_skipn. lia.
Qed.

Lemma memcpy_to_ok (buf : buffer) (off : Z) (src : list byte) :
  0 <= off -> off + len src <= len buf ->
  exists buf', memcpy_to buf off src = Some buf'.
Proof.
  intros H0 H1. unfold memcpy_to.
  destruct (Z.leb_spec 0 off); [ | lia].
  destruct (Z.leb_spec (off + len src) (len buf)); [ | lia].
  eexists. reflexivity.
Qed.

Lemma memcpy_to_bounds (buf : buffer) (off : Z) (src : list byte) (buf' : buffer) :
  memcpy_to buf off src = Some buf' ->
  0 <= off /\ off + len src <= len buf /\ len buf' = len buf.
Proof.
  intros H. destruct (memcpy_to_inv _ _ _ _ H)
    as (pre & mid & post & -> & -> & Hp & Hm).
  rewrite !len_app.
  pose proof (len_nonneg pre). pose proof (len_nonneg post). lia.
Qed.

(** Reading inside one segment of a buffer. *)
Lemma memcpy_from_segment (pre l post : buffer) (p n : Z) :
  0 <= p -> 0 <= n -> p + n <= len l ->
  memcpy_from (pre ++ l ++ post) (len pre + p) n
  = Some (firstn (Z.to_nat n) (skipn (Z.to_nat p) l)).
Proof.
  intros Hp Hn Hl. unfold memcpy_from.
  pose proof (len_nonneg pre) as Hpre. pose proof (len_nonneg post) as Hpost.
  rewrite !len_app.
  destruct (Z.leb_spec 0 (len pre + p)); [ | lia].
  destruct (Z.leb_spec 0 n); [ | lia].
  destruct (Z.leb_spec (len pre + p + n) (len pre + (len l + len post)));
    [ | lia].
  cbn [andb]. f_equal. unfold len in *.
  rewrite skipn_app, (skipn_all2 pre) by lia. cbn [app].
  rewrite skipn_app, firstn_app.
  replace (Z.to_nat (Z.of_nat (length pre) + p) - length pre)%nat
    with (Z.to_nat p) by lia.
  replace (Z.to_nat n - length (skipn (Z.to_nat p) l))%nat with 0%nat
    by (rewrite length_skipn; lia).
  cbn [firstn]. apply app_nil_r.
Qed.

(** The bytes just stored are read back. *)
Lemma memcpy_from_to (buf : buffer) (off : Z) (src : list byte) (buf' : buffer)
      (n : Z) :
  memcpy_to buf off src = Some buf' -> 0 <= n <= len src ->
  memcpy_from buf' off n = Some (firstn (Z.to_nat n) src).
Proof.
  intros H Hn. destruct (memcpy_to_inv _ _ _ _ H)
    as (pre & mid & post & -> & -> & Hp & Hm).
  replace off with (len pre + 0) by lia.
  rewrite memcpy_from_segment by lia. reflexivity.
Qed.

(** A store leaves every read that ends at or before its offset alone. *)
Lemma memcpy_from_before (buf : buffer) (off : Z) (src : list byte)
      (buf' : buffer) (p n : Z) :
  memcpy_to buf off src = Some buf' -> p + n <= off ->
  memcpy_from buf' p n = memcpy_from buf p n.
Proof.
  intros H Hpn. destruct (memcpy_to_inv _ _ _ _ H)
    as (pre & mid & post & -> & -> & Hp & Hm).
  unfold memcpy_from. rewrite !len_app, Hm.
  destruct (Z.leb_spec 0 p); [ | reflexivity].
  destruct (Z.leb_spec 0 n); [ | reflexivity].
  cbn [andb].
  destruct (Z.leb_spec (p + n) (len pre + (len src + len post)));
    [ | reflexivity].
  f_equal. unfold len in *.
  rewrite !skipn_app, !firstn_app.
  replace (Z.to_nat n - length (skipn (Z.to_nat p) pre))%nat with 0%nat
    by (rewrite length_skipn; lia).
  reflexivity.
Qed.

(** Two adjacent reads make one read. *)
Lemma memcpy_from_join (buf : buffer) (p n m : Z) (l1 l2 : list byte) :
  memcpy_from buf p n = Some l1 -> memcpy_from buf (p + n) m = Some l2 ->
  memcpy_from buf p (n + m) = Some (l1 ++ l2).
Proof.
  unfold memcpy_from.
  destruct (Z.leb_spec 0 p); [ | discriminate].
  destruct (Z.leb_spec 0 n); [ | discriminate].
  destruct (Z.leb_spec (p + n) (len buf)); [ | discriminate].
  destruct (Z.leb_spec 0 (p + n)); [ | discriminate].
  destruct (Z.leb_spec 0 m); [ | discriminate].
  destruct (Z.leb_spec (p + n + m) (len buf)); [ | discriminate].
  destruct (Z.leb_spec 0 (n + m)); [ | lia].
  destruct (Z.leb_spec (p + (n + m)) (len buf)); [ | lia].
  cbn [andb]. intros E1 E2. injection E1 as <-. injection E2 as <-.
  f_equal.
  replace (Z.to_nat (p + n)) with (Z.to_nat n + Z.to_nat p)%nat by lia.
  rewrite <- skipn_skipn.
  replace (Z.to_nat (n + m)) with (Z.to_nat n + Z.to_nat m)%nat by lia.
  set (l := skipn (Z.to_nat p) buf).
  rewrite <- (firstn_skipn (Z.to_nat n) l) at 1.
  unfold len in *.
  assert (Hl : (Z.to_nat n <= length l)%nat)
    by (unfold l; rewrite length_skipn; lia).
  rewrite firstn_app, firstn_firstn.
  replace (Init.Nat.min (Z.to_nat n + Z.to_nat m) (Z.to_nat n))
    with (Z.to_nat n) by lia.
  rewrite length_firstn.
  replace (Z.to_nat n + Z.to_nat m - Init.Nat.min (Z.to_nat n) (length l))%nat
    with (Z.to_nat m) by lia.
  reflexivity.
Qed.

Lemma memcpy_from_length (buf : buffer) (p n : Z) (l : list byte) :
  memcpy_from buf p n = Some l ->
  0 <= p /\ 0 <= n /\ p + n <= len buf /\ len l = n.
Proof.
  unfold memcpy_from.
  destruct (Z.leb_spec 0 p); [ | discriminate].
  destruct (Z.leb_spec 0 n); [ | discriminate].
  destruct (Z.leb_spec (p + n) (len buf)); [ | discriminate].
  cbn [andb]. intros E. injection E as <-.
  unfold len in *. rewrite length_firstn, length_skipn. lia.
Qed.

(** ** The if-chain of the unsigned pack *)

Lemma numBytes_range (x : Z) : 1 <= numBytes x <= 8.
Proof.
  unfold numBytes.
  repeat match goal with
         | |- context [?a <? ?b] => destruct (Z.ltb_spec a b)
         end; lia.
Qed.

(** [numBytes x] bytes hold [x]. *)
Lemma numBytes_fits (x : Z) :
  0 <= x < 2 ^ 64 -> x < 2 ^ (8 * numBytes x).
Proof.
  intros Hx. unfold numBytes.
  change (Z.shiftl 1 8) with (2 ^ 8). change (Z.shiftl 1 16) with (2 ^ 16).
  change (Z.shiftl 1 24) with (2 ^ 24). change (Z.shiftl 1 32) with (2 ^ 32).
  change (Z.shiftl 1 40) with (2 ^ 40). change (Z.shiftl 1 48) with (2 ^ 48).
  change (Z.shiftl 1 56) with (2 ^ 56).
  repeat match goal with
         | |- context [?a <? ?b] => destruct (Z.ltb_spec a b)
         end; lia.
Qed.

(** No smaller positive byte count holds [x]. *)
Lemma numBytes_least (x b : Z) :
  0 <= x -> 1 <= b -> x < 2 ^ (8 * b) -> numBytes x <= b.
Proof.
  intros Hx Hb Hfit.
  assert (Hmono : forall k, 0 <= k -> k < b -> 2 ^ (8 * k) <= 2 ^ (8 * b)).
  { intros k Hk Hkb. apply Z.pow_le_mono_r; lia. }
  unfold numBytes.
  change (Z.shiftl 1 8) with (2 ^ (8 * 1)).
  change (Z.shiftl 1 16) with (2 ^ (8 * 2)).
  change (Z.shiftl 1 24) with (2 ^ (8 * 3)).
  change (Z.shiftl 1 32) with (2 ^ (8 * 4)).
  change (Z.shiftl 1 40) with (2 ^ (8 * 5)).
  change (Z.shiftl 1 48) with (2 ^ (8 * 6)).
  change (Z.shiftl 1 56) with (2 ^ (8 * 7)).
  repeat match goal with
         | |- context [?a <? ?c] => destruct (Z.ltb_spec a c)
         end; try lia.
  all: match goal with
       | H : 2 ^ (8 * ?k) <= _ |- _ <= ?b' =>
           destruct (Z_lt_le_dec k b') as [ | Hge]; [lia | ];
           assert (2 ^ (8 * b') <= 2 ^ (8 * k))
             by (apply Z.pow_le_mono_r; lia); lia
       end.
Qed.

(** A number that needs more than [k] bytes gets more than [k]. *)
Lemma numBytes_lower (x k : Z) :
  0 <= x < 2 ^ 64 -> 0 <= k -> 2 ^ (8 * k) <= x -> k + 1 <= numBytes x.
Proof.
  intros Hx Hk Hle. pose proof (numBytes_fits x Hx) as Hfit.
  pose proof (numBytes_range x) as Hn.
  assert (H : 8 * k < 8 * numBytes x)
    by (apply (Z.pow_lt_mono_r_iff 2); lia).
  lia.
Qed.

(** ** pack as a store of [stored_value] under the code [code_of] *)

Lemma nibble_width_numBytes (x : Z) : nibble_width (numBytes x) = numBytes x.
Proof.
  pose proof (numBytes_range x) as H. unfold nibble_width.
  destruct (Z.eqb_spec (numBytes x) 0); [lia | ].
  destruct (Z.leb_spec (numBytes x) 8); lia.
Qed.

Lemma nibble_width_plus8 (x : Z) : nibble_width (8 + numBytes x) = numBytes x.
Proof.
  pose proof (numBytes_range x) as H. unfold nibble_width.
  destruct (Z.eqb_spec (8 + numBytes x) 0); [lia | ].
  destruct (Z.leb_spec (8 + numBytes x) 8); lia.
Qed.

Lemma negates_spec (T : ctype) (v : Z) :
  negates T v = true <->
  is_signed T = true /\ - 2 ^ (8 * (sizeof T - 1)) < v < 0.
Proof.
  unfold negates. rewrite andb_true_iff, negb_true_iff, orb_false_iff.
  rewrite Z.leb_gt, Z.leb_gt. intuition lia.
Qed.

Lemma neg_signed_negates (T : ctype) (v : Z) :
  negates T v = true -> neg_signed (8 * sizeof T) v = Some (- v).
Proof.
  intros H. apply negates_spec in H. destruct H as [Hs Hv].
  unfold neg_signed.
  destruct T; try discriminate; cbn [sizeof] in *;
    match goal with |- context [?a =? ?b] => destruct (Z.eqb_spec a b) end;
    try reflexivity; lia.
Qed.

(** The number of bytes [pack] moves the cursor by. *)
Lemma pack_eq_advance (T : ctype) (buf : buffer) (cur : Z) (v : Z) :
  pack T buf cur v =
  (buf' <- memcpy_to buf cur (object_bytes (stored_type T) (stored_value T v)) ;;
   Some (buf',
         cur + (if is_floating_point T then sizeof T
                else numBytes (stored_value T v)),
         code_of T v)).
Proof.
  assert (Hsigned : forall w (S U : ctype),
    is_signed S = true -> stored_type S = U -> sizeof S = sizeof U ->
    is_floating_point S = false ->
    stored_value S v = (if negates S v then static_cast U (- v)
                        else static_cast U v) ->
    w = to_signed (8 * sizeof S) (- Z.shiftl 1 (8 * (sizeof S - 1))) ->
    w = - 2 ^ (8 * (sizeof S - 1)) ->
    (if (0 <=? v) || (v <=? w)
     then pack_unsigned U buf cur (static_cast U v)
     else nval <- neg_signed (8 * sizeof S) v ;;
          r <- pack_unsigned U buf cur (static_cast U nval) ;;
          Some (plus8 r)) =
    (buf' <- memcpy_to buf cur (object_bytes (stored_type S) (stored_value S v)) ;;
     Some (buf', cur + numBytes (stored_value S v), code_of S v))).
  { intros w S U HS HU Hsz Hfl Hsv _ Hw. unfold code_of. rewrite Hfl, Hsv, HU.
    destruct (negates S v) eqn:Hneg.
    - apply neg_signed_negates in Hneg as Hn.
      apply negates_spec in Hneg. destruct Hneg as [_ Hv].
      destruct (Z.leb_spec 0 v); [lia | ].
      destruct (Z.leb_spec v w); [lia | ].
      cbn [orb]. rewrite Hn. cbn [bind]. unfold pack_unsigned.
      destruct (memcpy_to buf cur (object_bytes U (static_cast U (- v))));
        cbn [bind plus8]; reflexivity.
    - assert (Hc : (0 <=? v) || (v <=? w) = true).
      { unfold negates in Hneg. rewrite HS in Hneg. cbn [andb] in Hneg.
        apply negb_false_iff in Hneg. now rewrite Hw. }
      rewrite Hc. unfold pack_unsigned.
      destruct (memcpy_to buf cur (object_bytes U (static_cast U v)));
        cbn [bind]; reflexivity. }
  destruct T; cbn [pack is_floating_point];
    unfold pack_int32, pack_int64, pack_longlong, keeps_int32, keeps_int64;
    try (unfold pack_unsigned, code_of, stored_value;
         cbn [is_floating_point negates is_signed andb stored_type];
         reflexivity);
    try (unfold pack_floating, code_of;
         cbn [is_floating_point stored_type stored_value sizeof]; reflexivity).
  - apply (Hsigned _ I32 U32); reflexivity.
  - apply (Hsigned _ I64 U64); reflexivity.
  - apply (Hsigned _ LL U64); reflexivity.
Qed.

Lemma as_nibble_small (c : Z) : 0 <= c <= 15 -> as_nibble c = c.
Proof.
  intros H. unfold as_nibble. rewrite Z.land_comm. apply land_15_small. lia.
Qed.

Lemma as_nibble_range (c : Z) : 0 <= as_nibble c <= 15.
Proof.
  unfold as_nibble. change 15 with (Z.ones 4) at 1 2.
  rewrite Z.land_ones by lia.
  pose proof (Z.mod_pos_bound c (2 ^ 4) ltac:(lia)). lia.
Qed.

(** In the negating branch the magnitude is stored, in fewer than
    [sizeof(T)] bytes. *)
Lemma stored_value_negates (T : ctype) (v : Z) :
  negates T v = true ->
  stored_value T v = - v /\ numBytes (- v) <= sizeof T - 1 /\ sizeof T <= 8.
Proof.
  intros Hneg. apply negates_spec in Hneg as Hv. destruct Hv as [HS Hv].
  assert (Hsv : stored_value T v = to_unsigned (8 * sizeof T) (- v))
    by (destruct T; try discriminate; cbn [stored_value]; rewrite Hneg;
        reflexivity).
  rewrite Hsv. split.
  - apply to_unsigned_small.
    destruct T; try discriminate; cbn [sizeof] in *; lia.
  - split; [ | destruct T; try discriminate; cbn; lia].
    apply numBytes_least; destruct T; try discriminate; cbn [sizeof] in *; lia.
Qed.

(** The width of the nibble is the number of bytes the cursor moves by. *)
Lemma encoded_width_eq (T : ctype) (v : Z) :
  encoded_width T v =
  if is_floating_point T then sizeof T else numBytes (stored_value T v).
Proof.
  unfold encoded_width, code_of. destruct (is_floating_point T) eqn:HF.
  - destruct T; try discriminate; reflexivity.
  - pose proof (numBytes_range (stored_value T v)) as Hn.
    destruct (negates T v) eqn:Hneg.
    + destruct (stored_value_negates T v Hneg) as (Hsv & Hle & Hs).
      rewrite Hsv in *. rewrite as_nibble_small by lia.
      apply nibble_width_plus8.
    + rewrite as_nibble_small by lia. apply nibble_width_numBytes.
Qed.

(** For every type but [long double] the code is its own nibble. *)
Lemma as_nibble_code_of (T : ctype) (v : Z) :
  T <> LDouble -> as_nibble (code_of T v) = code_of T v.
Proof.
  intros HT. unfold code_of. destruct (is_floating_point T) eqn:HF.
  - destruct T; try discriminate; try reflexivity. congruence.
  - pose proof (numBytes_range (stored_value T v)) as Hn.
    destruct (negates T v) eqn:Hneg.
    + destruct (stored_value_negates T v Hneg) as (Hsv & Hle & Hs).
      rewrite Hsv in *. apply as_nibble_small. lia.
    + apply as_nibble_small. lia.
Qed.

Lemma pack_eq (T : ctype) (buf : buffer) (cur : Z) (v : Z) :
  pack T buf cur v =
  (buf' <- memcpy_to buf cur (object_bytes (stored_type T) (stored_value T v)) ;;
   Some (buf', cur + encoded_width T v, code_of T v)).
Proof. rewrite pack_eq_advance, encoded_width_eq. reflexivity. Qed.

(** ** What is stored for a value of the type *)

Lemma sizeof_stored_type (T : ctype) : sizeof (stored_type T) = sizeof T.
Proof. destruct T; reflexivity. Qed.

Lemma sizeof_cases (T : ctype) :
  sizeof T = 1 \/ sizeof T = 2 \/ sizeof T = 4 \/ sizeof T = 8 \/ sizeof T = 16.
Proof. destruct T; cbn; lia. Qed.

Lemma sizeof_integral (T : ctype) :
  is_floating_point T = false ->
  sizeof T = 1 \/ sizeof T = 2 \/ sizeof T = 4 \/ sizeof T = 8.
Proof. intros HF. destruct T; try discriminate; cbn; lia. Qed.

Lemma stored_value_signed (T : ctype) (v : Z) :
  is_signed T = true -> in_range T v ->
  stored_value T v =
  if negates T v then - v
  else if 0 <=? v then v else v + 2 ^ (8 * sizeof T).
Proof.
  intros HS Hr. unfold in_range in Hr. rewrite HS in Hr.
  assert (Hsv : stored_value T v =
                if negates T v then to_unsigned (8 * sizeof T) (- v)
                else to_unsigned (8 * sizeof T) v)
    by (destruct T; try discriminate; reflexivity).
  rewrite Hsv. clear Hsv.
  destruct (negates T v) eqn:Hneg.
  - apply negates_spec in Hneg. destruct Hneg as [_ Hv].
    apply to_unsigned_small.
    destruct T; try discriminate; cbn [sizeof] in *; lia.
  - destruct (Z.leb_spec 0 v).
    + apply to_unsigned_small.
      destruct T; try discriminate; cbn [sizeof] in *; lia.
    + unfold to_unsigned. symmetry. apply Z.mod_unique with (q := -1);
        destruct T; try discriminate; cbn [sizeof] in *; lia.
Qed.

Lemma stored_value_unsigned (T : ctype) (v : Z) :
  is_signed T = false -> in_range T v -> stored_value T v = v.
Proof.
  intros HS Hr. destruct T; try discriminate; try reflexivity.
  cbn [stored_value]. now apply static_cast_in_range.
Qed.

Lemma stored_value_bounds (T : ctype) (v : Z) :
  in_range T v -> 0 <= stored_value T v < 2 ^ (8 * sizeof T).
Proof.
  intros Hr. destruct (is_signed T) eqn:HS.
  - rewrite stored_value_signed by assumption.
    unfold in_range in Hr. rewrite HS in Hr.
    destruct (negates T v) eqn:Hneg.
    + apply negates_spec in Hneg. destruct Hneg as [_ Hv].
      destruct T; try discriminate; cbn [sizeof] in *; lia.
    + destruct (Z.leb_spec 0 v);
        destruct T; try discriminate; cbn [sizeof] in *; lia.
  - rewrite stored_value_unsigned by assumption.
    unfold in_range in Hr. now rewrite HS in Hr.
Qed.

(** The width of an encoded value is between 1 and [sizeof(T)]. *)
Lemma encoded_width_bounds (T : ctype) (v : Z) :
  in_range T v -> 1 <= encoded_width T v <= sizeof T.
Proof.
  intros Hr. rewrite encoded_width_eq.
  destruct (is_floating_point T) eqn:HF.
  - destruct (sizeof_cases T) as [? | [? | [? | [? | ?]]]]; lia.
  - pose proof (stored_value_bounds T v Hr) as Hb.
    pose proof (numBytes_range (stored_value T v)).
    split; [lia | ].
    apply numBytes_least; try lia.
    destruct (sizeof_integral T HF) as [? | [? | [? | ?]]]; lia.
Qed.

(** The stored number fits the width its code announces. *)
Lemma stored_value_fits (T : ctype) (v : Z) :
  in_range T v ->
  0 <= stored_value T v < 2 ^ (8 * encoded_width T v).
Proof.
  intros Hr. pose proof (stored_value_bounds T v Hr) as Hb.
  rewrite encoded_width_eq.
  destruct (is_floating_point T) eqn:HF; [exact Hb | ].
  split; [lia | ]. apply numBytes_fits.
  assert (2 ^ (8 * sizeof T) <= 2 ^ 64)
    by (apply Z.pow_le_mono_r; destruct (sizeof_integral T HF); lia).
  lia.
Qed.

Lemma length_encoded_bytes (T : ctype) (v : Z) :
  in_range T v -> len (encoded_bytes T v) = encoded_width T v.
Proof.
  intros Hr. pose proof (encoded_width_bounds T v Hr) as Hw.
  unfold encoded_bytes, object_bytes, len.
  rewrite length_firstn, length_le_split, sizeof_stored_type. lia.
Qed.

Lemma le_combine_encoded (T : ctype) (v : Z) :
  in_range T v -> le_combine (encoded_bytes T v) = stored_value T v.
Proof.
  intros Hr. pose proof (encoded_width_bounds T v Hr) as Hw.
  pose proof (stored_value_fits T v Hr) as Hf.
  pose proof (stored_value_bounds T v Hr) as Hb.
  unfold encoded_bytes, object_bytes.
  rewrite le_combine_firstn, le_combine_split, sizeof_stored_type.
  rewrite !Z2Nat.id by lia.
  replace (sizeof T * 8) with (8 * sizeof T) by lia.
  rewrite (Z.mod_small _ (2 ^ (8 * sizeof T))) by exact Hb.
  apply Z.mod_small. exact Hf.
Qed.

Lemma ctype_eq_LDouble (T : ctype) : T = LDouble \/ T <> LDouble.
Proof. destruct T; (now left) || (right; discriminate). Qed.

(** ** Decoding the bytes of an encoded value *)

Section DecoderProperties.

Variable float_to : ctype -> Z -> Z.

Lemma unpack_not_floating (T : ctype) (mem : buffer) (pos code : Z) :
  is_floating_point T = false ->
  unpack float_to T mem pos code = Some (unpack_integral T mem pos code).
Proof. intros H. destruct T; try discriminate; reflexivity. Qed.

Lemma cast_back_direct (T : ctype) (v : Z) :
  is_floating_point T = false -> in_range T v -> negates T v = false ->
  static_cast T (stored_value T v) = v.
Proof.
  intros HF Hr Hneg. destruct (is_signed T) eqn:HS.
  - assert (Hsv : stored_value T v = v mod 2 ^ (8 * sizeof T))
      by (destruct T; try discriminate; cbn [stored_value]; rewrite Hneg;
          reflexivity).
    rewrite Hsv. unfold static_cast. rewrite HS, to_signed_mod.
    unfold in_range in Hr. rewrite HS in Hr.
    apply to_signed_small; [destruct (sizeof_integral T HF); lia | exact Hr].
  - rewrite stored_value_unsigned by assumption.
    now apply static_cast_in_range.
Qed.

(** [unpack<T>] applied to the bytes that [pack] left for [v], under the
    code [pack] returned, gives [v] back and skips exactly those bytes. *)
Lemma unpack_encoded (T : ctype) (mem : buffer) (pos : Z) (v : Z) :
  in_range T v ->
  memcpy_from mem pos (encoded_width T v) = Some (encoded_bytes T v) ->
  unpack float_to T mem pos (code_of T v)
  = Some (Some v, pos + encoded_width T v).
Proof.
  intros Hr Hmem.
  pose proof (le_combine_encoded T v Hr) as Hle.
  pose proof (stored_value_bounds T v Hr) as Hb.
  rewrite encoded_width_eq in Hmem |- *.
  destruct (is_floating_point T) eqn:HF.
  - unfold code_of. rewrite HF.
    destruct T; try discriminate; cbn [sizeof] in Hmem |- *;
      unfold unpack, unpack_floating; cbn [sizeof].
    + change (4 =? 4) with true. cbv iota. rewrite Hmem. cbn [bind].
      now rewrite Hle.
    + change (8 =? 4) with false. change (8 =? 0) with false.
      cbv iota zeta. change (8 <? 8) with false. change (8 =? 8) with true.
      cbv iota. rewrite Hmem. cbn [bind]. now rewrite Hle.
    + change (16 =? 4) with false. change (16 =? 0) with false.
      cbv iota zeta. change (16 <? 16) with false.
      change (16 =? 16) with true.
      cbv iota. rewrite Hmem. cbn [bind]. now rewrite Hle.
  - rewrite unpack_not_floating by exact HF. f_equal.
    pose proof (numBytes_range (stored_value T v)) as Hn.
    unfold code_of. rewrite HF.
    unfold unpack_integral, load_packed.
    destruct (negates T v) eqn:Hneg.
    + destruct (Z.leb_spec (8 + numBytes (stored_value T v)) 8); [lia | ].
      destruct (Z.eqb_spec (8 + numBytes (stored_value T v)) 0); [lia | ].
      replace (8 + numBytes (stored_value T v) - 8)
        with (numBytes (stored_value T v)) by lia.
      rewrite land_15_small by lia.
      destruct (Z.leb_spec (numBytes (stored_value T v)) 8); [ | lia].
      rewrite Hmem. cbn [bind]. rewrite Hle.
      apply negates_spec in Hneg as Hv. destruct Hv as [HS Hv].
      rewrite stored_value_signed by assumption. rewrite Hneg.
      assert (H56 : 2 ^ (8 * (sizeof T - 1)) <= 2 ^ 56)
        by (apply Z.pow_le_mono_r; destruct (sizeof_integral T HF); lia).
      rewrite to_signed_small by lia.
      unfold neg_signed. destruct (Z.eqb_spec (- v) (- 2 ^ (64 - 1))); [lia | ].
      cbn [bind]. rewrite Z.opp_involutive.
      now rewrite static_cast_in_range.
    + destruct (Z.leb_spec (numBytes (stored_value T v)) 8); [ | lia].
      rewrite Hmem. cbn [bind].
      rewrite Hle, static_cast_to_signed64 by exact HF.
      now rewrite cast_back_direct.
Qed.

(** The same with the nibble the code is kept in: for a [long double] that
    is the nibble 0, under which [unpack] reads its 16 bytes. *)
Lemma unpack_encoded_nibble (T : ctype) (mem : buffer) (pos : Z) (v : Z) :
  in_range T v ->
  memcpy_from mem pos (encoded_width T v) = Some (encoded_bytes T v) ->
  unpack float_to T mem pos (as_nibble (code_of T v))
  = Some (Some v, pos + encoded_width T v).
Proof.
  intros Hr Hmem.
  destruct (ctype_eq_LDouble T) as [-> | HT].
  - pose proof (le_combine_encoded LDouble v Hr) as Hle.
    rewrite encoded_width_eq in Hmem |- *. cbn [is_floating_point sizeof] in *.
    change (as_nibble (code_of LDouble v)) with 0.
    unfold unpack, unpack_floating. cbn [sizeof].
    change (0 =? 4) with false. change (0 =? 0) with true.
    cbv iota zeta. change (16 <? 16) with false. change (16 =? 16) with true.
    cbv iota. rewrite Hmem. cbn [bind]. now rewrite Hle.
  - rewrite as_nibble_code_of by exact HT. now apply unpack_encoded.
Qed.

End DecoderProperties.

(** ** One pack call *)

Lemma length_object_bytes (T : ctype) (x : Z) : len (object_bytes T x) = sizeof T.
Proof.
  unfold object_bytes, len. rewrite length_le_split.
  destruct (sizeof_cases T); lia.
Qed.

Lemma pack_inv (T : ctype) (buf : buffer) (cur v : Z) (buf' : buffer)
      (cur' code : Z) :
  pack T buf cur v = Some (buf', cur', code) ->
  memcpy_to buf cur (object_bytes (stored_type T) (stored_value T v)) = Some buf'
  /\ cur' = cur + encoded_width T v /\ code = code_of T v.
Proof.
  rewrite pack_eq.
  destruct (memcpy_to buf cur _) as [b | ]; cbn [bind]; [ | discriminate].
  intros E. injection E as <- <- <-. auto.
Qed.

(** With room for [sizeof(T)] bytes at the cursor, [pack] returns. *)
Lemma pack_ok (T : ctype) (buf : buffer) (cur v : Z) :
  0 <= cur -> cur + sizeof T <= len buf ->
  exists buf',
    pack T buf cur v = Some (buf', cur + encoded_width T v, code_of T v).
Proof.
  intros H0 H1. rewrite pack_eq.
  destruct (memcpy_to_ok buf cur
              (object_bytes (stored_type T) (stored_value T v))) as [b Hb];
    [lia | rewrite length_object_bytes, sizeof_stored_type; lia | ].
  rewrite Hb. cbn [bind]. eauto.
Qed.

(** After [pack], the bytes between the old and the new cursor are the
    encoded bytes of the value. *)
Lemma pack_reads_back (T : ctype) (buf : buffer) (cur v : Z) (buf' : buffer)
      (cur' code : Z) :
  in_range T v -> pack T buf cur v = Some (buf', cur', code) ->
  memcpy_from buf' cur (encoded_width T v) = Some (encoded_bytes T v).
Proof.
  intros Hr Hp. apply pack_inv in Hp. destruct Hp as (Hm & _ & _).
  pose proof (encoded_width_bounds T v Hr) as Hw.
  unfold encoded_bytes. apply memcpy_from_to with (buf := buf); [exact Hm | ].
  rewrite length_object_bytes, sizeof_stored_type. lia.
Qed.

(** A negative value kept as its bit pattern takes the full width. *)
Lemma code_of_kept_negative (T : ctype) (v : Z) :
  is_signed T = true -> in_range T v ->
  v <= - 2 ^ (8 * (sizeof T - 1)) -> code_of T v = sizeof T.
Proof.
  intros HS Hr Hv.
  assert (Hneg : negates T v = false).
  { destruct (negates T v) eqn:E; [ | reflexivity].
    apply negates_spec in E. lia. }
  pose proof (stored_value_bounds T v Hr) as Hb.
  assert (HF : is_floating_point T = false)
    by (destruct T; try discriminate; reflexivity).
  unfold code_of. rewrite HF, Hneg.
  assert (H64 : 2 ^ (8 * sizeof T) <= 2 ^ 64)
    by (apply Z.pow_le_mono_r; destruct (sizeof_integral T HF); lia).
  assert (Hlo : 2 ^ (8 * (sizeof T - 1)) <= stored_value T v).
  { rewrite stored_value_signed, Hneg by assumption.
    unfold in_range in Hr. rewrite HS in Hr.
    assert (0 < 2 ^ (8 * (sizeof T - 1)))
      by (apply Z.pow_pos_nonneg; destruct (sizeof_integral T HF); lia).
    destruct (Z.leb_spec 0 v); [lia | ].
    destruct T; try discriminate; cbn [sizeof] in *; lia. }
  pose proof (numBytes_lower (stored_value T v) (sizeof T - 1)) as Hl.
  pose proof (numBytes_least (stored_value T v) (sizeof T)) as Hu.
  destruct (sizeof_integral T HF); lia.
Qed.

(** ** Single bytes around a store *)

Lemma byte_at_memcpy_to_outside (buf : buffer) (off : Z) (src : list byte)
      (buf' : buffer) (i : Z) :
  memcpy_to buf off src = Some buf' -> i < off \/ off + len src <= i ->
  byte_at buf' i = byte_at buf i.
Proof.
  intros H Hi. destruct (memcpy_to_inv _ _ _ _ H)
    as (pre & mid & post & -> & -> & Hp & Hm).
  unfold byte_at. destruct (Z.leb_spec 0 i); [ | reflexivity].
  unfold len in *. destruct Hi as [Hi | Hi].
  - rewrite !nth_error_app1 by lia. reflexivity.
  - rewrite !nth_error_app2 by lia. f_equal. lia.
Qed.

(** The object representation of a small number: its low bytes, then
    zeros. *)
Lemma le_split_small (n k : nat) (x : Z) :
  (k <= n)%nat -> 0 <= x < 2 ^ (8 * Z.of_nat k) ->
  le_split n x = le_split k x ++ repeat Byte.x00 (n - k).
Proof.
  intros Hk Hx. apply le_combine_inj.
  - rewrite length_app, !length_le_split, repeat_length. lia.
  - rewrite le_combine_app_0, !le_combine_split.
    replace (Z.of_nat k * 8) with (8 * Z.of_nat k) by lia.
    rewrite (Z.mod_small x (2 ^ (8 * Z.of_nat k))) by exact Hx.
    apply Z.mod_small. split; [lia | ].
    assert (2 ^ (8 * Z.of_nat k) <= 2 ^ (Z.of_nat n * 8))
      by (apply Z.pow_le_mono_r; lia).
    lia.
Qed.

Lemma keeps_negates (T : ctype) (v : Z) :
  is_signed T = true -> keeps T v = negb (negates T v).
Proof.
  intros HS. unfold negates. rewrite HS. cbn [andb]. rewrite negb_involutive.
  destruct T; try discriminate; reflexivity.
Qed.

(** ** Nibbles *)

Lemma small_cases (a : Z) :
  0 <= a <= 15 ->
  a = 0 \/ a = 1 \/ a = 2 \/ a = 3 \/ a = 4 \/ a = 5 \/ a = 6 \/ a = 7 \/
  a = 8 \/ a = 9 \/ a = 10 \/ a = 11 \/ a = 12 \/ a = 13 \/ a = 14 \/ a = 15.
Proof. lia. Qed.

Lemma first_second_pair (a b : Z) :
  0 <= a <= 15 -> 0 <= b <= 15 ->
  first (byte.of_Z (Z.lor a (Z.shiftl b 4))) = a /\
  second (byte.of_Z (Z.lor a (Z.shiftl b 4))) = b.
Proof.
  intros Ha Hb.
  destruct (small_cases a Ha) as
    [-> | [-> | [-> | [-> | [-> | [-> | [-> | [-> | [-> | [-> | [-> | [-> |
    [-> | [-> | [-> | ->]]]]]]]]]]]]]]];
  destruct (small_cases b Hb) as
    [-> | [-> | [-> | [-> | [-> | [-> | [-> | [-> | [-> | [-> | [-> | [-> |
    [-> | [-> | [-> | ->]]]]]]]]]]]]]]];
  split; vm_compute; reflexivity.
Qed.

Lemma first_single (a : Z) : 0 <= a <= 15 -> first (byte.of_Z a) = a.
Proof.
  intros Ha.
  destruct (small_cases a Ha) as
    [-> | [-> | [-> | [-> | [-> | [-> | [-> | [-> | [-> | [-> | [-> | [-> |
    [-> | [-> | [-> | ->]]]]]]]]]]]]]]];
  vm_compute; reflexivity.
Qed.

(** Induction on a list two elements at a time. *)
Lemma list_pair_ind (A : Type) (P : list A -> Prop) :
  P [] -> (forall a, P [a]) -> (forall a b l, P l -> P (a :: b :: l)) ->
  forall l, P l.
Proof.
  intros H0 H1 H2 l.
  enough (H : P l /\ forall a, P (a :: l)) by apply H.
  induction l as [ | x l [IH1 IH2]]; split; auto.
Qed.

Lemma nibble_bytes_nth (codes : list Z) :
  forall j c, nth_error codes j = Some c ->
  exists b, nth_error (nibble_bytes codes) (j / 2)%nat = Some b /\
            (if Nat.even j then first b else second b) = as_nibble c.
Proof.
  induction codes as [ | a | a b l IH] using list_pair_ind; intros j c Hj.
  - destruct j; discriminate.
  - destruct j as [ | [ | j]]; try discriminate.
    injection Hj as <-.
    exists (byte.of_Z (as_nibble a)).
    split; [reflexivity | apply first_single, as_nibble_range].
  - destruct (first_second_pair (as_nibble a) (as_nibble b)
                (as_nibble_range a) (as_nibble_range b)) as [E1 E2].
    destruct j as [ | [ | j]].
    + injection Hj as <-. eexists. split; [reflexivity | exact E1].
    + injection Hj as <-. eexists. split; [reflexivity | exact E2].
    + destruct (IH j c Hj) as (x & Hx & Hc).
      exists x. split; [ | exact Hc].
      assert (Hd : (S (S j) / 2 = S (j / 2))%nat).
      { replace (S (S j)) with (1 * 2 + j)%nat by lia.
        rewrite Nat.div_add_l by lia. lia. }
      rewrite Hd. exact Hx.
Qed.

Lemma length_nibble_bytes (codes : list Z) :
  len (nibble_bytes codes) = (Z.of_nat (length codes) + 1) / 2.
Proof.
  unfold len.
  induction codes as [ | a | a b l IH] using list_pair_ind.
  - reflexivity.
  - reflexivity.
  - cbn [nibble_bytes length]. rewrite !Nat2Z.inj_succ, IH.
    replace (Z.succ (Z.succ (Z.of_nat (length l))) + 1)
      with (Z.of_nat (length l) + 1 + 1 * 2) by lia.
    rewrite Z.div_add by lia. lia.
Qed.

(** The nibbles of a stream that holds [nibble_bytes codes] at [len pre]. *)
Lemma nibble_at_nibble_bytes (pre post : buffer) (codes : list Z) (k : Z) :
  0 <= k < Z.of_nat (length codes) ->
  nibble_at (pre ++ nibble_bytes codes ++ post) (len pre) k
  = nth_error (map as_nibble codes) (Z.to_nat k).
Proof.
  intros Hk. rewrite nth_error_map.
  destruct (nth_error codes (Z.to_nat k)) as [c | ] eqn:Hc;
    [ | apply nth_error_None in Hc; lia].
  cbn [option_map].
  destruct (nibble_bytes_nth codes _ _ Hc) as (b & Hb & Hn).
  assert (Hdiv : Z.of_nat (Z.to_nat k / 2) = k / 2).
  { rewrite Nat2Z.inj_div, Z2Nat.id by lia. reflexivity. }
  assert (Hev : Nat.even (Z.to_nat k) = Z.even k).
  { rewrite <- (Z2Nat.id k) at 2 by lia.
    generalize (Z.to_nat k). intros n.
    induction n as [ | n IHn]; [reflexivity | ].
    rewrite Nat2Z.inj_succ, Z.even_succ, Nat.even_succ.
    rewrite <- Z.negb_even, <- Nat.negb_even. now rewrite IHn. }
  unfold nibble_at, byte_at.
  pose proof (len_nonneg pre) as Hpre.
  assert (0 <= k / 2) by (apply Z.div_pos; lia).
  destruct (Z.leb_spec 0 (len pre + k / 2)); [ | lia].
  unfold len in *.
  rewrite nth_error_app2 by lia.
  replace (Z.to_nat (Z.of_nat (length pre) + k / 2) - length pre)%nat
    with (Z.to_nat k / 2)%nat by lia.
  rewrite nth_error_app1 by (apply nth_error_Some; congruence).
  rewrite Hb. cbn [bind]. now rewrite <- Hev, Hn.
Qed.

(** ** The size calculator *)

Lemma uint32_t_range (z : Z) : 0 <= uint32_t z < 2 ^ 32.
Proof. unfold uint32_t, to_unsigned. apply Z.mod_pos_bound. lia. Qed.

Lemma uint32_t_add_l (a b : Z) : uint32_t (uint32_t a + b) = uint32_t (a + b).
Proof. unfold uint32_t, to_unsigned. apply Z.add_mod_idemp_l. lia. Qed.

Ltac uint32_solve :=
  unfold uint32_t, to_unsigned; change (2 ^ 32) with 4294967296;
  Z.div_mod_to_equations; lia.

Lemma add_single_spec (size f : Z) :
  0 <= f <= 15 -> add_single size f = uint32_t (size + nibble_width f).
Proof.
  intros Hf. unfold add_single, nibble_width.
  destruct (Z.eqb_spec f 0); destruct (Z.ltb_spec 8 f);
    destruct (Z.leb_spec f 8); try lia; uint32_solve.
Qed.

Lemma add_pair_spec (size f s : Z) :
  0 <= f <= 15 -> 0 <= s <= 15 ->
  add_pair size f s = uint32_t (size + (nibble_width f + nibble_width s)).
Proof.
  intros Hf Hs. unfold add_pair, nibble_width.
  destruct (Z.eqb_spec f 0); destruct (Z.ltb_spec 8 f);
    destruct (Z.leb_spec f 8); try lia;
    destruct (Z.eqb_spec s 0); destruct (Z.ltb_spec 8 s);
    destruct (Z.leb_spec s 8); try lia; uint32_solve.
Qed.

Lemma sum_widths_app (l1 l2 : list Z) :
  sum_widths (l1 ++ l2) = sum_widths l1 + sum_widths l2.
Proof.
  unfold sum_widths.
  induction l1 as [ | c l1 IH]; cbn [app fold_right]; lia.
Qed.

(** Reading one nibble gives the byte it lives in. *)
Lemma nibble_at_inv (mem : buffer) (nibbles k c : Z) :
  nibble_at mem nibbles k = Some c ->
  exists b, byte_at mem (nibbles + k / 2) = Some b /\
            (if Z.even k then first b else second b) = c.
Proof.
  unfold nibble_at. destruct (byte_at mem (nibbles + k / 2)) as [b | ];
    cbn [bind]; [ | discriminate].
  intros E. injection E as <-. eauto.
Qed.

Lemma size_loop_spec (mem : buffer) (nibbles : Z) (todo : nat) :
  forall (cs : list Z) (i size : Z),
    0 <= i -> 0 <= size < 2 ^ 32 -> (2 * todo <= length cs)%nat ->
    Forall (fun c => 0 <= c <= 15) cs ->
    (forall j, (j < length cs)%nat ->
       nibble_at mem nibbles (2 * i + Z.of_nat j) = nth_error cs j) ->
    size_loop todo mem nibbles i size
    = Some (uint32_t (size + sum_widths (firstn (2 * todo) cs))).
Proof.
  induction todo as [ | todo IH]; intros cs i size Hi Hsize Hlen HF Hnib.
  { cbn. rewrite Z.add_0_r. unfold uint32_t, to_unsigned.
    now rewrite Z.mod_small by exact Hsize. }
  destruct cs as [ | c1 [ | c2 cs]]; cbn [length] in Hlen; try lia.
    inversion HF as [ | ? ? H1 HF']; subst.
    inversion HF' as [ | ? ? H2 HF'']; subst.
    pose proof (Hnib 0%nat ltac:(cbn; lia)) as N0.
    pose proof (Hnib 1%nat ltac:(cbn; lia)) as N1.
    cbn [nth_error] in N0, N1.
    apply nibble_at_inv in N0. destruct N0 as (b & Hb & Hf).
    apply nibble_at_inv in N1. destruct N1 as (b' & Hb' & Hs).
    replace ((2 * i + Z.of_nat 0) / 2) with i in Hb
      by (rewrite Z.add_0_r, Z.mul_comm, Z.div_mul; lia).
    replace ((2 * i + Z.of_nat 1) / 2) with i in Hb'
      by (change (Z.of_nat 1) with 1; rewrite Z.add_comm, Z.mul_comm,
            Z.div_add, Z.div_small; lia).
    rewrite Hb in Hb'. injection Hb' as <-.
    replace (Z.even (2 * i + Z.of_nat 0)) with true in Hf
      by (rewrite Z.add_0_r, Z.even_mul; reflexivity).
    replace (Z.even (2 * i + Z.of_nat 1)) with false in Hs
      by (change (Z.of_nat 1) with 1; rewrite Z.add_comm, Z.even_add_mul_2;
            reflexivity).
    cbn [size_loop]. rewrite Hb. cbn [bind]. rewrite Hf, Hs.
    rewrite add_pair_spec by assumption.
    rewrite (IH cs (i + 1) (uint32_t (size + (nibble_width c1 + nibble_width c2))));
      [ | lia | apply uint32_t_range | lia | exact HF'' | ].
    - replace (2 * S todo)%nat with (S (S (2 * todo))) by lia.
      cbn [firstn]. unfold sum_widths. cbn [fold_right].
      rewrite uint32_t_add_l. do 2 f_equal. lia.
    - intros j Hj.
      replace (2 * (i + 1) + Z.of_nat j) with (2 * i + Z.of_nat (S (S j)))
        by lia.
      rewrite Hnib by (cbn [length]; lia). reflexivity.
Qed.

(** On a stream whose nibbles are [codes], the calculator returns the sum
    of their widths, reduced to 32 bits. *)
Lemma getSizeOfPackedValues_spec (mem : buffer) (nibbles : Z) (codes : list Z) :
  Forall (fun c => 0 <= c <= 15) codes ->
  (forall k, 0 <= k < Z.of_nat (length codes) ->
     nibble_at mem nibbles k = nth_error codes (Z.to_nat k)) ->
  getSizeOfPackedValues mem nibbles (Z.of_nat (length codes))
  = Some (uint32_t (sum_widths codes)).
Proof.
  intros HF Hnib. unfold getSizeOfPackedValues.
  set (n := Z.of_nat (length codes)).
  assert (Hn : 0 <= n) by (unfold n; lia).
  pose proof (Z.div_mod n 2 ltac:(lia)) as Hdm.
  pose proof (Z.mod_pos_bound n 2 ltac:(lia)) as Hmb.
  assert (Hq : 0 <= n / 2) by (apply Z.div_pos; lia).
  rewrite (size_loop_spec mem nibbles _ codes 0 0); try lia; try assumption.
  2: { intros j Hj. replace (2 * 0 + Z.of_nat j) with (Z.of_nat j) by lia.
       rewrite Hnib by lia. now rewrite Nat2Z.id. }
  cbn [bind]. rewrite Z.add_0_l.
  replace (Z.land n 1) with (n mod 2)
    by (change (n mod 2 ^ 1 = Z.land n (Z.ones 1)); symmetry;
        apply Z.land_ones; lia).
  destruct (Z.eqb_spec (n mod 2) 0) as [He | Ho]; cbn [negb].
  - rewrite firstn_all2 by lia. reflexivity.
  - assert (Hlast : exists c, nth_error codes (Z.to_nat (n - 1)) = Some c).
    { destruct (nth_error codes (Z.to_nat (n - 1))) eqn:E; [eauto | ].
      apply nth_error_None in E. lia. }
    destruct Hlast as [c Hc].
    pose proof (Hnib (n - 1) ltac:(lia)) as Hk. rewrite Hc in Hk.
    apply nibble_at_inv in Hk. destruct Hk as (b & Hb & Hf).
    replace ((n - 1) / 2) with (n / 2) in Hb
      by (apply Z.div_unique with (r := 0); lia).
    replace (Z.even (n - 1)) with true in Hf.
    2: { symmetry. replace (n - 1) with (2 * (n / 2)) by lia.
         rewrite Z.even_mul. reflexivity. }
    rewrite Hb. cbn [bind]. rewrite Hf.
    assert (Hc15 : 0 <= c <= 15).
    { rewrite Forall_forall in HF. apply HF. eapply nth_error_In. exact Hc. }
    rewrite add_single_spec, uint32_t_add_l by exact Hc15.
    do 2 f_equal.
    assert (Hsplit : codes = firstn (2 * Z.to_nat (n / 2)) codes ++ [c]).
    { rewrite <- (firstn_skipn (2 * Z.to_nat (n / 2)) codes) at 1.
      f_equal.
      replace (2 * Z.to_nat (n / 2))%nat with (Z.to_nat (n - 1)) by lia.
      pose proof (nth_error_split codes (Z.to_nat (n - 1)) Hc)
        as (l1 & l2 & E & El).
      rewrite E at 1. rewrite <- El, skipn_app, skipn_all, Nat.sub_diag.
      cbn [skipn app]. f_equal.
      destruct l2; [reflexivity | ].
      apply (f_equal (@length Z)) in E.
      rewrite length_app in E. cbn [length] in E. lia. }
    rewrite Hsplit at 2. rewrite sum_widths_app.
    unfold sum_widths. cbn [fold_right]. lia.
Qed.

(** ** Widths: the calculator against the integral decoder *)

(** What the calculator counts for one nibble is [nibble_width]. *)
Lemma getSizeOfPackedValues_single (c : Z) :
  0 <= c <= 15 ->
  getSizeOfPackedValues [byte.of_Z c] 0 1 = Some (nibble_width c).
Proof.
  intros Hc.
  destruct (small_cases c Hc) as
    [-> | [-> | [-> | [-> | [-> | [-> | [-> | [-> | [-> | [-> | [-> | [-> |
    [-> | [-> | [-> | ->]]]]]]]]]]]]]]];
  vm_compute; reflexivity.
Qed.

(** The integral [unpack] moves its cursor by [nibble_width] for every
    nibble but 0, where it does not move. *)
Lemma unpack_integral_advance (T : ctype) (mem : buffer) (cur c : Z) :
  0 <= c <= 15 ->
  snd (unpack_integral T mem cur c)
  = cur + (if c =? 0 then 0 else nibble_width c).
Proof.
  intros Hc.
  destruct (small_cases c Hc) as
    [-> | [-> | [-> | [-> | [-> | [-> | [-> | [-> | [-> | [-> | [-> | [-> |
    [-> | [-> | [-> | ->]]]]]]]]]]]]]]];
  reflexivity.
Qed.

(** ** The range of the codes *)

Lemma code_of_negating (T : ctype) (v : Z) :
  in_range T v -> negates T v = true ->
  - v < 2 ^ (8 * (sizeof T - 1)) /\ 9 <= code_of T v <= 8 + (sizeof T - 1).
Proof.
  intros Hr Hneg. apply negates_spec in Hneg as Hv. destruct Hv as [HS Hv].
  assert (HF : is_floating_point T = false)
    by (destruct T; try discriminate; reflexivity).
  unfold code_of. rewrite HF, Hneg.
  rewrite stored_value_signed, Hneg by assumption.
  pose proof (numBytes_range (- v)).
  split; [lia | ]. split; [lia | ].
  enough (numBytes (- v) <= sizeof T - 1) by lia.
  apply numBytes_least; destruct T; try discriminate; cbn [sizeof] in *; lia.
Qed.

Lemma code_of_direct (T : ctype) (v : Z) :
  in_range T v -> is_floating_point T = false -> negates T v = false ->
  1 <= code_of T v <= sizeof T.
Proof.
  intros Hr HF Hneg. pose proof (encoded_width_bounds T v Hr) as Hw.
  rewrite encoded_width_eq, HF in Hw.
  unfold code_of. rewrite HF, Hneg. exact Hw.
Qed.

Lemma code_of_floating (T : ctype) (v : Z) :
  is_floating_point T = true -> code_of T v = sizeof T.
Proof. intros HF. unfold code_of. now rewrite HF. Qed.

Lemma code_of_range (T : ctype) (v : Z) :
  in_range T v ->
  1 <= code_of T v <= 16 /\ (T <> LDouble -> code_of T v <= 15).
Proof.
  intros Hr. destruct (is_floating_point T) eqn:HF.
  - rewrite code_of_floating by exact HF.
    destruct T; try discriminate; cbn [sizeof]; split; try lia;
      intros HL; try lia; now elim HL.
  - destruct (negates T v) eqn:Hneg.
    + destruct (code_of_negating T v Hr Hneg) as [_ Hc].
      destruct (sizeof_integral T HF); lia.
    + pose proof (code_of_direct T v Hr HF Hneg).
      destruct (sizeof_integral T HF); lia.
Qed.

(** ** Runs of pack calls *)

Lemma pack_sequence_codes (vs : list (ctype * Z)) :
  forall buf cur buf' cur' codes,
    pack_sequence vs buf cur = Some (buf', cur', codes) ->
    codes = map value_code vs /\
    cur' = cur + sum_widths (map value_nibble vs).
Proof.
  induction vs as [ | [T v] vs IH]; intros buf cur buf' cur' codes H.
  - cbn in H. injection H as <- <- <-. cbn. split; [reflexivity | lia].
  - cbn [pack_sequence] in H.
    destruct (pack T buf cur v) as [[[buf1 cur1] code] | ] eqn:Hp;
      cbn [bind] in H; [ | discriminate].
    destruct (pack_sequence vs buf1 cur1) as [[[buf2 cur2] cs] | ] eqn:Hs;
      cbn [bind] in H; [ | discriminate].
    injection H as <- <- <-.
    apply pack_inv in Hp. destruct Hp as (_ & -> & ->).
    destruct (IH _ _ _ _ _ Hs) as [-> ->].
    cbn [map]. unfold sum_widths. cbn [fold_right].
    change (value_code (T, v)) with (code_of T v).
    change (nibble_width (value_nibble (T, v))) with (encoded_width T v).
    split; [reflexivity | lia].
Qed.

Lemma value_nibbles_range (vs : list (ctype * Z)) :
  Forall (fun c => 0 <= c <= 15) (map value_nibble vs).
Proof.
  apply Forall_map, Forall_forall. intros tv _. apply as_nibble_range.
Qed.

Lemma map_as_nibble_codes (vs : list (ctype * Z)) :
  map as_nibble (map value_code vs) = map value_nibble vs.
Proof. rewrite map_map. reflexivity. Qed.

(** Unless a long double is among the values, every code is its nibble. *)
Lemma value_nibble_code (vs : list (ctype * Z)) :
  Forall (fun tv => fst tv <> LDouble) vs ->
  map value_nibble vs = map value_code vs.
Proof.
  intros HL. apply map_ext_in. intros [T v] Hin.
  rewrite Forall_forall in HL. specialize (HL _ Hin). cbn [fst] in HL.
  unfold value_nibble, value_code. cbn [fst snd].
  now apply as_nibble_code_of.
Qed.

(** Each value takes at least one byte. *)
Lemma sum_widths_lower (vs : list (ctype * Z)) :
  Forall value_in_range vs ->
  Z.of_nat (length vs) <= sum_widths (map value_nibble vs).
Proof.
  induction 1 as [ | [T v] vs Hr _ IH]; [cbn; lia | ].
  pose proof (encoded_width_bounds T v Hr).
  cbn [map length]. unfold sum_widths in *. cbn [fold_right].
  change (nibble_width (value_nibble (T, v))) with (encoded_width T v). lia.
Qed.

Lemma pack_sequence_len (vs : list (ctype * Z)) :
  forall buf cur buf' cur' codes,
    pack_sequence vs buf cur = Some (buf', cur', codes) -> len buf' = len buf.
Proof.
  induction vs as [ | [T v] vs IH]; intros buf cur buf' cur' codes H.
  - cbn in H. now injection H as <- <- <-.
  - cbn [pack_sequence] in H.
    destruct (pack T buf cur v) as [[[buf1 cur1] code] | ] eqn:Hp;
      cbn [bind] in H; [ | discriminate].
    destruct (pack_sequence vs buf1 cur1) as [[[buf2 cur2] cs] | ] eqn:Hs;
      cbn [bind] in H; [ | discriminate].
    injection H as <- <- <-.
    apply pack_inv in Hp. destruct Hp as (Hm & _ & _).
    apply memcpy_to_bounds in Hm. rewrite (IH _ _ _ _ _ Hs). tauto.
Qed.

(** On the codes of a run of pack calls the calculator returns the number
    of bytes the cursor moved by, reduced to the 32 bits of its result. *)
Lemma packed_run_size_uint32 (vs : list (ctype * Z)) (buf : buffer) (cur : Z)
      (buf' : buffer) (cur' : Z) (codes : list Z) (pre post : buffer) :
  Forall value_in_range vs ->
  pack_sequence vs buf cur = Some (buf', cur', codes) ->
  getSizeOfPackedValues (pre ++ nibble_bytes codes ++ post) (len pre)
    (Z.of_nat (length vs)) = Some (uint32_t (cur' - cur)).
Proof.
  intros Hr Hp.
  destruct (pack_sequence_codes _ _ _ _ _ _ Hp) as [-> ->].
  pose proof (value_nibbles_range vs) as Hc.
  rewrite <- (length_map value_nibble vs).
  rewrite getSizeOfPackedValues_spec; [ | exact Hc | ].
  - do 2 f_equal. lia.
  - intros k Hk. rewrite length_map in Hk.
    rewrite nibble_at_nibble_bytes by (rewrite length_map; exact Hk).
    now rewrite map_as_nibble_codes.
Qed.

(** The bytes a run of pack calls leaves between the first and the last
    cursor are the encoded bytes of the values, in order; what lies before
    the first cursor is untouched. *)
Lemma pack_sequence_bytes (vs : list (ctype * Z)) :
  forall buf cur buf' cur' codes,
    Forall value_in_range vs -> 0 <= cur <= len buf ->
    pack_sequence vs buf cur = Some (buf', cur', codes) ->
    memcpy_from buf' cur (cur' - cur) = Some (concat (map value_bytes vs)) /\
    (forall p n, p + n <= cur -> memcpy_from buf' p n = memcpy_from buf p n).
Proof.
  induction vs as [ | [T v] vs IH]; intros buf cur buf' cur' codes Hr Hcur H.
  - cbn in H. injection H as <- <- <-. split; [ | reflexivity].
    unfold memcpy_from. rewrite Z.sub_diag.
    destruct (Z.leb_spec 0 cur); [ | lia].
    destruct (Z.leb_spec (cur + 0) (len buf)); [ | lia].
    reflexivity.
  - cbn [pack_sequence] in H.
    destruct (pack T buf cur v) as [[[buf1 cur1] code] | ] eqn:Hp;
      cbn [bind] in H; [ | discriminate].
    destruct (pack_sequence vs buf1 cur1) as [[[buf2 cur2] cs] | ] eqn:Hs;
      cbn [bind] in H; [ | discriminate].
    injection H as <- <- <-.
    inversion Hr as [ | ? ? Hv Hr']; subst.
    change (in_range T v) in Hv.
    pose proof (pack_reads_back _ _ _ _ _ _ _ Hv Hp) as Hback.
    pose proof (encoded_width_bounds T v Hv) as Hw.
    apply pack_inv in Hp. destruct Hp as (Hm & -> & ->).
    pose proof (memcpy_to_bounds _ _ _ _ Hm) as (Hb0 & Hb1 & Hb2).
    rewrite length_object_bytes, sizeof_stored_type in Hb1.
    assert (Hc1 : 0 <= cur + encoded_width T v <= len buf1) by lia.
    destruct (IH _ _ _ _ _ Hr' Hc1 Hs) as [Hrest Hframe].
    split.
    + replace (cur2 - cur)
        with (encoded_width T v
              + (cur2 - (cur + encoded_width T v))) by lia.
      cbn [map concat]. apply memcpy_from_join; [ | exact Hrest].
      rewrite Hframe by lia. exact Hback.
    + intros p n Hpn. rewrite Hframe by lia.
      now apply (memcpy_from_before _ _ _ _ p n Hm).
Qed.

(** A read of [l1 ++ l2] is a read of [l1] followed by a read of [l2]. *)
Lemma memcpy_from_split (buf : buffer) (p n m : Z) (l1 l2 : list byte) :
  0 <= m -> len l1 = n ->
  memcpy_from buf p (n + m) = Some (l1 ++ l2) ->
  memcpy_from buf p n = Some l1 /\ memcpy_from buf (p + n) m = Some l2.
Proof.
  intros Hm Hl1 H. pose proof (len_nonneg l1) as Hn.
  unfold memcpy_from in *.
  destruct (Z.leb_spec 0 p); [ | discriminate].
  destruct (Z.leb_spec 0 (n + m)); [ | discriminate].
  destruct (Z.leb_spec (p + (n + m)) (len buf)); [ | discriminate].
  cbn [andb] in H. injection H as H.
  destruct (Z.leb_spec 0 n); [ | lia].
  destruct (Z.leb_spec (p + n) (len buf)); [ | lia].
  destruct (Z.leb_spec 0 (p + n)); [ | lia].
  destruct (Z.leb_spec 0 m); [ | lia].
  destruct (Z.leb_spec (p + n + m) (len buf)); [ | lia].
  cbn [andb]. unfold len in *.
  assert (Hl : length l1 = Z.to_nat n) by lia.
  split; f_equal.
  - transitivity (firstn (Z.to_nat n) (l1 ++ l2)).
    + rewrite <- H, firstn_firstn. f_equal. lia.
    + rewrite firstn_app, firstn_all2 by lia.
      replace (Z.to_nat n - length l1)%nat with 0%nat by lia.
      cbn [firstn]. apply app_nil_r.
  - transitivity (skipn (Z.to_nat n) (l1 ++ l2)).
    + rewrite <- H.
      replace (Z.to_nat (p + n)) with (Z.to_nat n + Z.to_nat p)%nat by lia.
      rewrite <- skipn_skipn, firstn_skipn_comm. do 2 f_equal. lia.
    + rewrite skipn_app, skipn_all2 by lia.
      replace (Z.to_nat n - length l1)%nat with 0%nat by lia.
      reflexivity.
Qed.

(** ** The Nibbler *)

Lemma half_succ (k : Z) :
  0 <= k -> (k + 1) / 2 = if Z.even k then k / 2 else k / 2 + 1.
Proof.
  intros Hk. destruct (Z.even k) eqn:E.
  - apply Z.even_spec in E. destruct E as [m ->].
    rewrite Z.mul_comm, Z.div_mul by lia.
    rewrite Z.div_add_l by lia. change (1 / 2) with 0. lia.
  - rewrite <- Z.negb_odd in E. apply negb_false_iff in E.
    apply Z.odd_spec in E. destruct E as [m ->].
    replace (2 * m + 1 + 1) with ((m + 1) * 2) by lia.
    rewrite Z.div_mul by lia.
    rewrite (Z.mul_comm 2 m), Z.div_add_l by lia. change (1 / 2) with 0. lia.
Qed.

Lemma even_succ_negb (k : Z) : Z.even (k + 1) = negb (Z.even k).
Proof. rewrite Z.add_1_r, Z.even_succ. symmetry. apply Z.negb_even. Qed.

Section NibblerProperties.

Variable float_to : ctype -> Z -> Z.
Variable mem : buffer.
Variables nibbleStart n endOfValues : Z.

(** From the state reached after [k] values, [getNext] called with the
    types of the remaining values [rest] returns them in order. *)
Lemma getNext_sequence_spec (rest : list (ctype * Z)) :
  forall k cur,
    0 <= k -> Forall value_in_range rest ->
    cur + sum_widths (map value_nibble rest) <= endOfValues ->
    memcpy_from mem cur (sum_widths (map value_nibble rest))
    = Some (concat (map value_bytes rest)) ->
    (forall j, (j < length rest)%nat ->
       nibble_at mem nibbleStart (k + Z.of_nat j)
       = nth_error (map value_nibble rest) j) ->
    getNext_sequence float_to mem (map fst rest)
      (mkNibbler (nibbleStart + k / 2) (Z.even k) n cur endOfValues)
    = Some (map snd rest,
            mkNibbler (nibbleStart + (k + Z.of_nat (length rest)) / 2)
                      (Z.even (k + Z.of_nat (length rest))) n
                      (cur + sum_widths (map value_nibble rest)) endOfValues).
Proof.
  induction rest as [ | [T v] rest IH]; intros k cur Hk Hr Hend Hmem Hnib.
  - cbn. now rewrite !Z.add_0_r.
  - inversion Hr as [ | ? ? Hv Hr']; subst. change (in_range T v) in Hv.
    pose proof (encoded_width_bounds T v Hv) as Hw.
    pose proof (sum_widths_lower rest Hr') as Hlow.
    cbn [map] in Hmem, Hend, Hnib |- *.
    change (value_nibble (T, v)) with (as_nibble (code_of T v)) in *.
    change (value_bytes (T, v)) with (encoded_bytes T v) in *.
    unfold sum_widths in Hmem, Hend |- *. cbn [fold_right] in Hmem, Hend |- *.
    fold (sum_widths (map value_nibble rest)) in Hmem, Hend |- *.
    change (nibble_width (as_nibble (code_of T v)))
      with (encoded_width T v) in *.
    cbn [concat] in Hmem.
    apply memcpy_from_split in Hmem;
      [ | lia | now apply length_encoded_bytes].
    destruct Hmem as [Hhere Hthere].
    pose proof (Hnib 0%nat ltac:(cbn; lia)) as N0. cbn [nth_error] in N0.
    rewrite Z.add_0_r in N0.
    apply nibble_at_inv in N0. destruct N0 as (b & Hb & Hcode).
    cbn [getNext_sequence fst snd]. unfold getNext at 1.
    cbn [currPackedValue BufferUtils.endOfValues nibblePosition onFirstNibble
         numNibbles].
    destruct (Z.ltb_spec cur endOfValues); [ | lia].
    rewrite Hb. cbn [bind]. rewrite Hcode.
    rewrite (unpack_encoded_nibble float_to T mem cur v Hv Hhere).
    cbn [bind].
    replace (if Z.even k then nibbleStart + k / 2 else nibbleStart + k / 2 + 1)
      with (nibbleStart + (k + 1) / 2)
      by (rewrite half_succ by lia; destruct (Z.even k); lia).
    rewrite <- even_succ_negb.
    rewrite (IH (k + 1) (cur + encoded_width T v)); try assumption;
      try lia.
    + cbn [bind length]. do 3 f_equal.
      * do 2 f_equal. lia.
      * f_equal. lia.
      * lia.
    + intros j Hj.
      replace (k + 1 + Z.of_nat j) with (k + Z.of_nat (S j)) by lia.
      rewrite Hnib by (cbn [length]; lia). reflexivity.
Qed.

End NibblerProperties.

(** ** Runs of [2^32] bytes *)

(** A run of [n] values [2^64 - 1] of type [uint64_t]: every one takes its
    eight bytes and the code 8. *)
Lemma pack_sequence_repeat_max (n : nat) :
  forall buf cur,
    0 <= cur -> cur + 8 * Z.of_nat n <= len buf ->
    exists buf',
      pack_sequence (repeat (U64, 2 ^ 64 - 1) n) buf cur
      = Some (buf', cur + 8 * Z.of_nat n, repeat 8 n).
Proof.
  induction n as [ | n IH]; intros buf cur H0 H1.
  - exists buf. cbn [repeat pack_sequence]. do 3 f_equal. lia.
  - assert (Hroom : cur + sizeof U64 <= len buf) by (cbn [sizeof]; lia).
    destruct (pack_ok U64 buf cur (2 ^ 64 - 1) H0 Hroom) as [buf1 Hp].
    change (encoded_width U64 (2 ^ 64 - 1)) with 8 in Hp.
    change (code_of U64 (2 ^ 64 - 1)) with 8 in Hp.
    pose proof (pack_inv _ _ _ _ _ _ _ Hp) as (Hm & _ & _).
    apply memcpy_to_bounds in Hm. destruct Hm as (_ & _ & Hlen).
    destruct (IH buf1 (cur + 8)) as [buf' Hs]; [lia | lia | ].
    exists buf'. cbn [repeat pack_sequence]. rewrite Hp. cbn [bind].
    rewrite Hs. cbn [bind]. do 3 f_equal. lia.
Qed.

(** When such a run fills exactly [2^32] bytes, the size calculator
    returns 0 for its codes, the Nibbler constructed over the stream has
    the end of its values where they start, and its first [getNext] fails
    the assertion. *)
Lemma wrapped_run (float_to : ctype -> Z -> Z) (n : nat) (buf : buffer) :
  8 * Z.of_nat n = 2 ^ 32 -> len buf = 2 ^ 32 ->
  Forall value_in_range (repeat (U64, 2 ^ 64 - 1) n) /\
  exists buf' cur' codes vals nb,
    pack_sequence (repeat (U64, 2 ^ 64 - 1) n) buf 0
    = Some (buf', cur', codes) /\
    cur' - 0 = 2 ^ 32 /\
    memcpy_from buf' 0 (cur' - 0) = Some vals /\
    getSizeOfPackedValues ([] ++ nibble_bytes codes ++ []) (len [])
      (Z.of_nat (length (repeat (U64, 2 ^ 64 - 1) n))) = Some 0 /\
    Nibbler_new ([] ++ nibble_bytes codes ++ vals ++ []) (len [])
      (Z.of_nat (length (repeat (U64, 2 ^ 64 - 1) n))) = Some nb /\
    getNext_sequence float_to ([] ++ nibble_bytes codes ++ vals ++ [])
      (map fst (repeat (U64, 2 ^ 64 - 1) n)) nb = None.
Proof.
  intros Hn Hlen.
  assert (Hr : Forall value_in_range (repeat (U64, 2 ^ 64 - 1) n)).
  { apply Forall_forall. intros x Hx. apply repeat_spec in Hx. subst x.
    unfold value_in_range, in_range. cbn. lia. }
  split; [exact Hr | ].
  destruct (pack_sequence_repeat_max n buf 0) as [buf' Hp]; [lia | lia | ].
  pose proof (pack_sequence_len _ _ _ _ _ _ Hp) as Hl'.
  assert (Hsize : forall post,
            getSizeOfPackedValues ([] ++ nibble_bytes (repeat 8 n) ++ post)
              (len []) (Z.of_nat (length (repeat (U64, 2 ^ 64 - 1) n)))
            = Some 0).
  { intros post.
    rewrite (packed_run_size_uint32 _ _ _ _ _ _ [] post Hr Hp).
    replace (0 + 8 * Z.of_nat n - 0) with (2 ^ 32) by lia. reflexivity. }
  destruct (memcpy_from buf' 0 (0 + 8 * Z.of_nat n - 0)) as [vals | ] eqn:Hv.
  2: { unfold memcpy_from in Hv.
       destruct (Z.leb_spec 0 0); [ | lia].
       destruct (Z.leb_spec 0 (0 + 8 * Z.of_nat n - 0)); [ | lia].
       destruct (Z.leb_spec (0 + (0 + 8 * Z.of_nat n - 0)) (len buf'));
         [discriminate | lia]. }
  exists buf', (0 + 8 * Z.of_nat n), (repeat 8 n), vals.
  eexists. split; [exact Hp | ]. split; [lia | ]. split; [exact Hv | ].
  split; [apply Hsize | ].
  assert (Hcount : Z.of_nat (length (repeat (U64, 2 ^ 64 - 1) n)) = 2 ^ 29)
    by (rewrite repeat_length; lia).
  unfold Nibbler_new.
  destruct (Z.leb_spec
              (Z.of_nat (length (repeat (U64, 2 ^ 64 - 1) n)) + 1) INT_MAX)
    as [_ | Hbad]; [ | unfold INT_MAX in Hbad; lia].
  replace (uint32_t (Z.of_nat (length (repeat (U64, 2 ^ 64 - 1) n))))
    with (Z.of_nat (length (repeat (U64, 2 ^ 64 - 1) n)))
    by (unfold uint32_t; symmetry; apply to_unsigned_small; lia).
  rewrite (Hsize (vals ++ [])). cbn [bind].
  split; [reflexivity | ].
  destruct n as [ | n]; [lia | ].
  cbn [repeat map fst getNext_sequence]. unfold getNext.
  cbn [currPackedValue endOfValues]. rewrite Z.add_0_r, Z.ltb_irrefl.
  reflexivity.
Qed.

(** * The claims *)

(** C1.  Round trip: for every supported type [T] and every value [v] of
    [T] (zero, the least and the greatest value included), [pack] into a
    buffer with room for [sizeof(T)] bytes at the cursor returns, and
    [unpack<T>] from the same position with the returned code yields
    exactly [v] and stops where [pack] stopped. *)
Theorem pack_unpack_round_trip (float_to : ctype -> Z -> Z) (T : ctype)
        (buf : buffer) (cur v : Z) :
  in_range T v -> 0 <= cur -> cur + sizeof T <= len buf ->
  exists buf' cur' code,
    pack T buf cur v = Some (buf', cur', code) /\
    unpack float_to T buf' cur code = Some (Some v, cur').
Proof.
  intros Hr H0 H1. destruct (pack_ok T buf cur v H0 H1) as [buf' Hp].
  exists buf', (cur + encoded_width T v), (code_of T v).
  split; [exact Hp | ].
  apply unpack_encoded; [exact Hr | ].
  exact (pack_reads_back _ _ _ _ _ _ _ Hr Hp).
Qed.

Lemma pack_unpack_round_trip_witness :
  in_range I64 (- 2 ^ 63) /\
  exists buf' cur' code,
    pack I64 (repeat Byte.xff 10) 1 (- 2 ^ 63) = Some (buf', cur', code) /\
    unpack (fun _ z => z) I64 buf' 1 code = Some (Some (- 2 ^ 63), cur').
Proof.
  assert (Hr : in_range I64 (- 2 ^ 63)) by (unfold in_range; cbn; lia).
  split; [exact Hr | ].
  apply (pack_unpack_round_trip (fun _ z => z) I64 (repeat Byte.xff 10) 1
           (- 2 ^ 63) Hr); cbn; lia.
Defined.

(** C2 as stated fails: [int32_t] value [-2^24] is negative, yet [pack]
    keeps its bit pattern and returns the code 4. *)
Lemma negative_code_counterexample :
  in_range I32 (-16777216) /\ -16777216 < 0 /\
  exists buf' cur' code,
    pack I32 (repeat Byte.x00 4) 0 (-16777216) = Some (buf', cur', code) /\
    ~ 8 < code.
Proof.
  split; [unfold in_range; cbn; lia | ]. split; [lia | ].
  exists [Byte.x00; Byte.x00; Byte.x00; Byte.xff], 4, 4.
  split; [vm_compute; reflexivity | lia].
Qed.

(** C2, amended.  For a negative value [v] of [int32_t], [int64_t] or
    [long long], the code returned by [pack] is above 8 exactly when
    [v > -2^(8*(sizeof(T)-1))] (that is [-2^24], resp. [-2^56]); for the
    values at or below that bound the code is [sizeof(T)]; in both cases
    [unpack<T>] with the returned code gives [v] back. *)
Theorem negative_pack_round_trip (float_to : ctype -> Z -> Z) (T : ctype)
        (buf : buffer) (cur v : Z) :
  is_signed T = true -> in_range T v -> v < 0 ->
  0 <= cur -> cur + sizeof T <= len buf ->
  exists buf' cur' code,
    pack T buf cur v = Some (buf', cur', code) /\
    (8 < code <-> - 2 ^ (8 * (sizeof T - 1)) < v) /\
    (v <= - 2 ^ (8 * (sizeof T - 1)) -> code = sizeof T) /\
    unpack float_to T buf' cur code = Some (Some v, cur').
Proof.
  intros HS Hr Hv H0 H1. destruct (pack_ok T buf cur v H0 H1) as [buf' Hp].
  exists buf', (cur + encoded_width T v), (code_of T v).
  split; [exact Hp | ].
  assert (Hkept : v <= - 2 ^ (8 * (sizeof T - 1)) -> code_of T v = sizeof T)
    by (now apply code_of_kept_negative).
  assert (HF : is_floating_point T = false)
    by (destruct T; try discriminate; reflexivity).
  repeat split.
  - intros Hc. destruct (Z_lt_le_dec (- 2 ^ (8 * (sizeof T - 1))) v) as [ | Hle];
      [assumption | ].
    specialize (Hkept Hle). destruct (sizeof_integral T HF); lia.
  - intros Hlt.
    assert (Hneg : negates T v = true) by (apply negates_spec; split; [assumption | lia]).
    unfold code_of. rewrite HF, Hneg.
    pose proof (numBytes_range (stored_value T v)). lia.
  - exact Hkept.
  - apply unpack_encoded; [exact Hr | ].
    exact (pack_reads_back _ _ _ _ _ _ _ Hr Hp).
Qed.

Lemma negative_pack_round_trip_witness :
  in_range I32 (- 2 ^ 31) /\
  exists buf' cur' code,
    pack I32 (repeat Byte.x00 6) 2 (- 2 ^ 31) = Some (buf', cur', code) /\
    (8 < code <-> - 2 ^ (8 * (sizeof I32 - 1)) < - 2 ^ 31) /\
    (- 2 ^ 31 <= - 2 ^ (8 * (sizeof I32 - 1)) -> code = sizeof I32) /\
    unpack (fun _ z => z) I32 buf' 2 code = Some (Some (- 2 ^ 31), cur').
Proof.
  assert (Hr : in_range I32 (- 2 ^ 31)) by (unfold in_range; cbn; lia).
  split; [exact Hr | ].
  apply (negative_pack_round_trip (fun _ z => z) I32 (repeat Byte.x00 6) 2
           (- 2 ^ 31) eq_refl Hr); cbn; lia.
Defined.

(** C3 on the code: with the code 0 the integral and the pointer [unpack]
    take their first branch ([packResult <= 8]), copy no byte and leave the
    cursor where it was.  The floating-point [unpack] copies 16 bytes into
    its local [T]: for [long double] it moves the cursor by 16, for [float]
    and [double] the copy overruns the local and the call has no defined
    outcome. *)
Theorem unpack_code_zero_cursor (float_to : ctype -> Z -> Z) (T : ctype)
        (mem : buffer) (cur : Z) :
  option_map snd (unpack float_to T mem cur 0)
  = match T with
    | F32 | F64 => None
    | LDouble => Some (cur + 16)
    | _ => Some (cur + 0)
    end.
Proof. destruct T; reflexivity. Qed.

(** C4 on the code: for the code 0 the size calculator counts 16 bytes,
    and the integral [unpack] moves its cursor by none. *)
Theorem size_of_code_zero_differs (float_to : ctype -> Z -> Z) (mem : buffer)
        (cur : Z) :
  getSizeOfPackedValues [Byte.x00] 0 1 = Some 16 /\
  option_map snd (unpack float_to U64 mem cur 0) = Some (cur + 0).
Proof. split; reflexivity. Qed.

(** C5 as stated fails: [2^29] values [2^64 - 1] of type [uint64_t] take
    [2^32] value bytes; the size calculator called by the constructor
    returns 0 in its [uint32_t], so that the Nibbler has the end of its
    values where they start, and the first [getNext] fails its assertion
    instead of returning the first value. *)
Lemma nibbler_order_counterexample :
  Forall value_in_range (repeat (U64, 2 ^ 64 - 1) (Z.to_nat (2 ^ 29))) /\
  exists buf' cur' codes vals nb,
    pack_sequence (repeat (U64, 2 ^ 64 - 1) (Z.to_nat (2 ^ 29)))
      (repeat Byte.x00 (Z.to_nat (2 ^ 32))) 0 = Some (buf', cur', codes) /\
    memcpy_from buf' 0 (cur' - 0) = Some vals /\
    Nibbler_new ([] ++ nibble_bytes codes ++ vals ++ []) (len [])
      (Z.of_nat (length (repeat (U64, 2 ^ 64 - 1) (Z.to_nat (2 ^ 29)))))
    = Some nb /\
    getNext_sequence (fun _ z => z) ([] ++ nibble_bytes codes ++ vals ++ [])
      (map fst (repeat (U64, 2 ^ 64 - 1) (Z.to_nat (2 ^ 29)))) nb = None.
Proof.
  assert (Hn : 8 * Z.of_nat (Z.to_nat (2 ^ 29)) = 2 ^ 32)
    by (rewrite Z2Nat.id by lia; reflexivity).
  assert (Hlen : len (repeat Byte.x00 (Z.to_nat (2 ^ 32))) = 2 ^ 32)
    by (unfold len; rewrite repeat_length; apply Z2Nat.id; lia).
  destruct (wrapped_run (fun _ z => z) _ _ Hn Hlen)
    as (Hr & buf' & cur' & codes & vals & nb & Hp & _ & Hv & _ & Hnew & Hseq).
  split; [exact Hr | ].
  exists buf', cur', codes, vals, nb. auto.
Qed.

(** C5, amended.  Sequential order preservation: values [v1 .. vn] of
    possibly different types are packed in order into one value buffer; the
    stream is the codes, two to a byte with the earlier code in the low
    nibble ([ceil(n/2)] bytes), immediately followed by the value bytes.
    When [n + 1] does not exceed [INT_MAX] and the value bytes number less
    than [2^32], a Nibbler constructed over that stream returns [v1 .. vn]
    in that order when [getNext] is called [n] times with the types of the
    values, and has then reached the end of the packed values. *)
Theorem nibbler_returns_values_in_order (float_to : ctype -> Z -> Z)
        (vs : list (ctype * Z)) (buf : buffer) (cur : Z)
        (buf' : buffer) (cur' : Z) (codes : list Z) (vals pre post : buffer) :
  Forall value_in_range vs ->
  pack_sequence vs buf cur = Some (buf', cur', codes) ->
  memcpy_from buf' cur (cur' - cur) = Some vals ->
  Z.of_nat (length vs) + 1 <= INT_MAX ->
  cur' - cur < 2 ^ 32 ->
  exists nb nb',
    Nibbler_new (pre ++ nibble_bytes codes ++ vals ++ post) (len pre)
      (Z.of_nat (length vs)) = Some nb /\
    getNext_sequence float_to
      (pre ++ nibble_bytes codes ++ vals ++ post) (map fst vs) nb
    = Some (map snd vs, nb') /\
    currPackedValue nb' = getEndOfPackedArguments nb.
Proof.
  intros Hr Hp Hvals Hn Hlt.
  pose proof (pack_sequence_len _ _ _ _ _ _ Hp) as Hlen.
  pose proof (memcpy_from_length _ _ _ _ Hvals) as (Hc0 & Hc1 & Hc2 & Hlv).
  assert (Hcur : 0 <= cur <= len buf) by lia.
  destruct (pack_sequence_bytes vs _ _ _ _ _ Hr Hcur Hp) as [Hbytes _].
  rewrite Hvals in Hbytes. injection Hbytes as ->.
  destruct (pack_sequence_codes _ _ _ _ _ _ Hp) as [-> ->].
  set (mem := pre ++ nibble_bytes (map value_code vs)
                ++ concat (map value_bytes vs) ++ post).
  set (n := Z.of_nat (length vs)) in *.
  set (total := sum_widths (map value_nibble vs)) in *.
  replace (cur + total - cur) with total in * by lia.
  pose proof (value_nibbles_range vs) as Hc.
  assert (Hnib : forall k, 0 <= k < n ->
            nibble_at mem (len pre) k
            = nth_error (map value_nibble vs) (Z.to_nat k)).
  { intros k Hk. rewrite <- map_as_nibble_codes.
    apply nibble_at_nibble_bytes. rewrite length_map. exact Hk. }
  assert (Hsize : getSizeOfPackedValues mem (len pre) n = Some total).
  { unfold n. rewrite <- (length_map value_nibble vs).
    rewrite getSizeOfPackedValues_spec; [ | exact Hc | ].
    - f_equal. unfold uint32_t. apply to_unsigned_small. lia.
    - rewrite length_map. exact Hnib. }
  assert (Hn0 : 0 <= n) by (unfold n; lia).
  assert (Hquot : Z.quot (n + 1) 2 = (n + 1) / 2)
    by (apply Z.quot_div_nonneg; lia).
  assert (Hnew : Nibbler_new mem (len pre) n
                 = Some (mkNibbler (len pre) true n (len pre + (n + 1) / 2)
                                   (len pre + (n + 1) / 2 + total))).
  { unfold Nibbler_new. unfold INT_MAX in *.
    destruct (Z.leb_spec (n + 1) (2 ^ 31 - 1)); [ | lia].
    unfold uint32_t at 1. rewrite to_unsigned_small by lia.
    rewrite Hsize. cbn [bind]. now rewrite Hquot. }
  rewrite Hnew. do 2 eexists. split; [reflexivity | ].
  pose proof (getNext_sequence_spec float_to mem (len pre) n
                (len pre + (n + 1) / 2 + total) vs 0 (len pre + (n + 1) / 2))
    as Hseq.
  change (0 / 2) with 0 in Hseq. change (Z.even 0) with true in Hseq.
  rewrite Z.add_0_r in Hseq. fold total in Hseq.
  rewrite Hseq.
  - split; reflexivity.
  - lia.
  - exact Hr.
  - lia.
  - unfold mem. rewrite app_assoc.
    replace (len pre + (n + 1) / 2)
      with (len (pre ++ nibble_bytes (map value_code vs)) + 0)
      by (rewrite len_app, length_nibble_bytes, length_map; fold n; lia).
    rewrite memcpy_from_segment by lia.
    cbn [skipn Z.to_nat]. rewrite firstn_all2 by (unfold len in Hlv; lia).
    reflexivity.
  - intros j Hj. rewrite Z.add_0_l, Hnib by (unfold n; lia).
    now rewrite Nat2Z.id.
Qed.

Lemma nibbler_returns_values_in_order_witness :
  exists nb nb',
    Nibbler_new
      ([Byte.xaa] ++ nibble_bytes [2; 9; 8]
       ++ [Byte.x00; Byte.x01; Byte.x05; Byte.x1f; Byte.x85; Byte.xeb;
           Byte.x51; Byte.xb8; Byte.x1e; Byte.x09; Byte.x40]
       ++ [Byte.xbb]) (len [Byte.xaa])
      (Z.of_nat (length [(U32, 256); (I32, -5); (F64, 4614253070214989087)]))
    = Some nb /\
    getNext_sequence (fun _ z => z)
      ([Byte.xaa] ++ nibble_bytes [2; 9; 8]
       ++ [Byte.x00; Byte.x01; Byte.x05; Byte.x1f; Byte.x85; Byte.xeb;
           Byte.x51; Byte.xb8; Byte.x1e; Byte.x09; Byte.x40]
       ++ [Byte.xbb])
      (map fst [(U32, 256); (I32, -5); (F64, 4614253070214989087)]) nb
    = Some (map snd [(U32, 256); (I32, -5); (F64, 4614253070214989087)], nb') /\
    currPackedValue nb' = getEndOfPackedArguments nb.
Proof.
  assert (Hr : Forall value_in_range
                 [(U32, 256); (I32, -5); (F64, 4614253070214989087)])
    by (repeat constructor; unfold value_in_range, in_range; cbn; lia).
  refine (nibbler_returns_values_in_order (fun _ z => z)
            [(U32, 256); (I32, -5); (F64, 4614253070214989087)]
            (repeat Byte.xff 16) 0 _ 11 [2; 9; 8] _ [Byte.xaa] [Byte.xbb]
            Hr _ _ _ _).
  - vm_compute. reflexivity.
  - vm_compute. reflexivity.
  - vm_compute. discriminate.
  - lia.
Defined.

(** C6.  Minimality.  For an unsigned integer [v] the code returned by
    [pack] is the number of bytes the cursor moves by, lies in
    [[1, sizeof(T)]] and is the least [b >= 1] with [v < 2^(8*b)].  For a
    signed integer [v] the number of bytes taken is the smaller of the least
    widths of the bit pattern of [v] and of the bit pattern of [-v]. *)
Theorem pack_width_minimal (T : ctype) (buf : buffer) (cur v : Z) :
  is_unsigned_integral T || is_signed T = true ->
  in_range T v -> 0 <= cur -> cur + sizeof T <= len buf ->
  exists buf' cur' code,
    pack T buf cur v = Some (buf', cur', code) /\
    if is_signed T then
      exists bd bn,
        least_width (to_unsigned (8 * sizeof T) v) bd /\
        least_width (to_unsigned (8 * sizeof T) (- v)) bn /\
        cur' - cur = Z.min bd bn /\ nibble_width code = Z.min bd bn
    else
      cur' - cur = code /\ 1 <= code <= sizeof T /\ least_width v code.
Proof.
  intros HT Hr H0 H1. destruct (pack_ok T buf cur v H0 H1) as [buf' Hp].
  exists buf', (cur + encoded_width T v), (code_of T v).
  split; [exact Hp | ].
  assert (HF : is_floating_point T = false)
    by (destruct T; try discriminate; reflexivity).
  pose proof (encoded_width_bounds T v Hr) as Hw.
  pose proof (stored_value_bounds T v Hr) as Hb.
  assert (H64 : 2 ^ (8 * sizeof T) <= 2 ^ 64)
    by (apply Z.pow_le_mono_r; destruct (sizeof_integral T HF); lia).
  assert (Hleast : forall x, 0 <= x < 2 ^ 64 -> least_width x (numBytes x)).
  { intros x Hx. pose proof (numBytes_range x). repeat split; try lia.
    - now apply numBytes_fits.
    - intros b' Hb' Hfit. apply numBytes_least; lia. }
  assert (Hnw : nibble_width (code_of T v) = encoded_width T v).
  { unfold encoded_width. rewrite as_nibble_code_of; [reflexivity | ].
    intros ->. discriminate. }
  rewrite encoded_width_eq, HF in *.
  destruct (is_signed T) eqn:HS.
  - set (d := to_unsigned (8 * sizeof T) v).
    set (n := to_unsigned (8 * sizeof T) (- v)).
    assert (Hd : 0 <= d < 2 ^ (8 * sizeof T))
      by (apply Z.mod_pos_bound; lia).
    assert (Hn : 0 <= n < 2 ^ (8 * sizeof T))
      by (apply Z.mod_pos_bound; lia).
    exists (numBytes d), (numBytes n).
    split; [apply Hleast; lia | ]. split; [apply Hleast; lia | ].
    assert (Hdle : numBytes d <= sizeof T)
      by (apply numBytes_least; destruct (sizeof_integral T HF); lia).
    assert (Hnle : numBytes n <= sizeof T)
      by (apply numBytes_least; destruct (sizeof_integral T HF); lia).
    assert (Hsv : stored_value T v = if negates T v then n else d)
      by (destruct T; try discriminate; reflexivity).
    assert (Hmin : numBytes (stored_value T v) = Z.min (numBytes d) (numBytes n)).
    { rewrite Hsv. unfold in_range in Hr. rewrite HS in Hr.
      assert (Hpos : 0 < 2 ^ (8 * (sizeof T - 1)))
        by (apply Z.pow_pos_nonneg; destruct (sizeof_integral T HF); lia).
      assert (Hhalf : 2 ^ (8 * (sizeof T - 1)) <= 2 ^ (8 * sizeof T - 1))
        by (apply Z.pow_le_mono_r; destruct (sizeof_integral T HF); lia).
      assert (Hdbl : 2 ^ (8 * sizeof T) = 2 * 2 ^ (8 * sizeof T - 1)).
      { replace (8 * sizeof T) with (Z.succ (8 * sizeof T - 1)) at 1 by lia.
        apply Z.pow_succ_r. destruct (sizeof_integral T HF); lia. }
      destruct (negates T v) eqn:Hneg.
      - apply negates_spec in Hneg. destruct Hneg as [_ Hv].
        assert (Hdv : d = v + 2 ^ (8 * sizeof T)).
        { unfold d, to_unsigned. symmetry.
          apply Z.mod_unique with (q := -1); lia. }
        pose proof (numBytes_lower d (sizeof T - 1)) as Hl.
        destruct (sizeof_integral T HF); lia.
      - destruct (Z.eq_dec v 0) as [-> | Hnz]; [unfold d, n; cbn; lia | ].
        enough (sizeof T <= numBytes n) by lia.
        pose proof (numBytes_lower n (sizeof T - 1)) as Hl.
        enough (2 ^ (8 * (sizeof T - 1)) <= n)
          by (destruct (sizeof_integral T HF); lia).
        destruct (Z_lt_le_dec 0 v).
        + assert (Hnv : n = - v + 2 ^ (8 * sizeof T)).
          { unfold n, to_unsigned. symmetry.
            apply Z.mod_unique with (q := -1); lia. }
          lia.
        + assert (Hv : v <= - 2 ^ (8 * (sizeof T - 1))).
          { destruct (Z_lt_le_dec (- 2 ^ (8 * (sizeof T - 1))) v); [ | lia].
            assert (negates T v = true) by (apply negates_spec; split; [assumption | lia]).
            congruence. }
          assert (Hnv : n = - v)
            by (unfold n; apply to_unsigned_small; lia).
          lia. }
    split; lia.
  - rewrite stored_value_unsigned in * by assumption.
    assert (Hc : code_of T v = numBytes v).
    { unfold code_of. rewrite HF.
      assert (Hneg : negates T v = false) by (unfold negates; now rewrite HS).
      rewrite Hneg. now rewrite stored_value_unsigned by assumption. }
    rewrite Hc. split; [lia | ]. split; [lia | ]. apply Hleast. lia.
Qed.

Lemma pack_width_minimal_witness :
  in_range I32 (-300) /\
  exists buf' cur' code,
    pack I32 (repeat Byte.xff 8) 3 (-300) = Some (buf', cur', code) /\
    exists bd bn,
      least_width (to_unsigned (8 * sizeof I32) (-300)) bd /\
      least_width (to_unsigned (8 * sizeof I32) (- -300)) bn /\
      cur' - 3 = Z.min bd bn /\ nibble_width code = Z.min bd bn.
Proof.
  assert (Hr : in_range I32 (-300)) by (unfold in_range; cbn; lia).
  split; [exact Hr | ].
  apply (pack_width_minimal I32 (repeat Byte.xff 8) 3 (-300) eq_refl Hr);
    cbn; lia.
Defined.

(** C7 as stated fails: the pack calls of [2^29] values [2^64 - 1] of type
    [uint64_t] move the cursor by [2^32] bytes, and for their codes
    [getSizeOfPackedValues] returns 0, the sum reduced to its [uint32_t]. *)
Lemma packed_run_size_counterexample :
  Forall value_in_range (repeat (U64, 2 ^ 64 - 1) (Z.to_nat (2 ^ 29))) /\
  exists buf' cur' codes,
    pack_sequence (repeat (U64, 2 ^ 64 - 1) (Z.to_nat (2 ^ 29)))
      (repeat Byte.x00 (Z.to_nat (2 ^ 32))) 0 = Some (buf', cur', codes) /\
    cur' - 0 = 2 ^ 32 /\
    getSizeOfPackedValues ([] ++ nibble_bytes codes ++ []) (len [])
      (Z.of_nat (length (repeat (U64, 2 ^ 64 - 1) (Z.to_nat (2 ^ 29)))))
    = Some 0.
Proof.
  assert (Hn : 8 * Z.of_nat (Z.to_nat (2 ^ 29)) = 2 ^ 32)
    by (rewrite Z2Nat.id by lia; reflexivity).
  assert (Hlen : len (repeat Byte.x00 (Z.to_nat (2 ^ 32))) = 2 ^ 32)
    by (unfold len; rewrite repeat_length; apply Z2Nat.id; lia).
  destruct (wrapped_run (fun _ z => z) _ _ Hn Hlen)
    as (Hr & buf' & cur' & codes & vals & nb & Hp & Hc & _ & Hsize & _).
  split; [exact Hr | ].
  exists buf', cur', codes. auto.
Qed.

(** C7, amended.  Size-calculator consistency: for a run of [N] codes
    returned by pack calls of values of their types that moved the cursor of
    the value buffer by less than [2^32] bytes in all, stored two to a
    byte, [getSizeOfPackedValues] returns the number of bytes by which those
    calls moved the cursor, for even and for odd [N]. *)
Theorem packed_run_size (vs : list (ctype * Z)) (buf : buffer) (cur : Z)
        (buf' : buffer) (cur' : Z) (codes : list Z) (pre post : buffer) :
  Forall value_in_range vs ->
  pack_sequence vs buf cur = Some (buf', cur', codes) ->
  cur' - cur < 2 ^ 32 ->
  length codes = length vs /\
  getSizeOfPackedValues (pre ++ nibble_bytes codes ++ post) (len pre)
    (Z.of_nat (length vs)) = Some (cur' - cur).
Proof.
  intros Hr Hp Hlt.
  destruct (pack_sequence_codes _ _ _ _ _ _ Hp) as [Hcodes Hcur].
  pose proof (sum_widths_lower vs Hr) as Hlow.
  split; [rewrite Hcodes; apply length_map | ].
  rewrite (packed_run_size_uint32 vs buf cur buf' cur' codes pre post Hr Hp).
  f_equal. unfold uint32_t. apply to_unsigned_small. lia.
Qed.

Lemma packed_run_size_witness :
  Forall value_in_range [(U32, 256); (I32, -5); (F64, 4614253070214989087)] /\
  getSizeOfPackedValues
    ([Byte.xaa] ++ nibble_bytes [2; 9; 8] ++ [Byte.xbb]) (len [Byte.xaa])
    (Z.of_nat (length [(U32, 256); (I32, -5); (F64, 4614253070214989087)]))
  = Some (11 - 0).
Proof.
  assert (Hr : Forall value_in_range
                 [(U32, 256); (I32, -5); (F64, 4614253070214989087)])
    by (repeat constructor; unfold value_in_range, in_range; cbn; lia).
  split; [exact Hr | ].
  refine (proj2 (packed_run_size
                   [(U32, 256); (I32, -5); (F64, 4614253070214989087)]
                   (repeat Byte.x00 16) 0 _ 11 [2; 9; 8]
                   [Byte.xaa] [Byte.xbb] Hr _ _)).
  - vm_compute. reflexivity.
  - lia.
Defined.

(** C8 as stated fails: packing the [uint32_t] value 1 returns the code 1
    and yet overwrites the byte one past the cursor, because all four bytes
    of the value are stored. *)
Lemma pack_frame_counterexample :
  pack U32 (repeat Byte.xff 4) 0 1
  = Some ([Byte.x01; Byte.x00; Byte.x00; Byte.x00], 1, 1) /\
  byte_at (repeat Byte.xff 4) (0 + 1) = Some Byte.xff /\
  byte_at [Byte.x01; Byte.x00; Byte.x00; Byte.x00] (0 + 1) = Some Byte.x00.
Proof. repeat split. Qed.

(** C8, amended.  For an unsigned integer [v] packed with code [b], the
    encoder stores all [sizeof(T)] bytes of [v] at the cursor, which are the
    low [b] bytes of [v] followed by [sizeof(T) - b] zero bytes, and moves
    the cursor by [b]; every byte before the cursor or [sizeof(T)] or more
    past it is unchanged, and so is the length of the buffer. *)
Theorem pack_unsigned_frame (T : ctype) (buf : buffer) (cur v : Z)
        (buf' : buffer) (cur' code : Z) :
  is_unsigned_integral T = true -> in_range T v ->
  pack T buf cur v = Some (buf', cur', code) ->
  cur' = cur + code /\ 1 <= code <= sizeof T /\
  memcpy_from buf' cur (sizeof T)
  = Some (le_split (Z.to_nat code) v
          ++ repeat Byte.x00 (Z.to_nat (sizeof T - code))) /\
  (forall i, i < cur \/ cur + sizeof T <= i -> byte_at buf' i = byte_at buf i) /\
  len buf' = len buf.
Proof.
  intros HU Hr Hp.
  assert (HS : is_signed T = false) by (destruct T; try discriminate; reflexivity).
  assert (HF : is_floating_point T = false)
    by (destruct T; try discriminate; reflexivity).
  assert (HST : stored_type T = T) by (destruct T; try discriminate; reflexivity).
  pose proof (encoded_width_bounds T v Hr) as Hw.
  pose proof (stored_value_fits T v Hr) as Hfit.
  apply pack_inv in Hp. destruct Hp as (Hm & -> & ->).
  rewrite encoded_width_eq, HF in *.
  rewrite stored_value_unsigned, HST in * by assumption.
  assert (Hc : code_of T v = numBytes v).
  { unfold code_of. rewrite HF.
    assert (Hneg : negates T v = false) by (unfold negates; now rewrite HS).
    rewrite Hneg. now rewrite stored_value_unsigned by assumption. }
  rewrite Hc. split; [reflexivity | ]. split; [exact Hw | ].
  pose proof (length_object_bytes T v) as Hlen.
  pose proof (memcpy_to_bounds _ _ _ _ Hm) as (Hb0 & Hb1 & Hb2).
  repeat split.
  - rewrite (memcpy_from_to _ _ _ _ (sizeof T) Hm) by lia.
    f_equal. rewrite firstn_all2 by (unfold len in Hlen; lia).
    unfold object_bytes.
    rewrite (le_split_small (Z.to_nat (sizeof T)) (Z.to_nat (numBytes v)))
      by (rewrite ?Z2Nat.id; lia).
    do 2 f_equal. lia.
  - intros i Hi. apply (byte_at_memcpy_to_outside _ _ _ _ i Hm). lia.
  - exact Hb2.
Qed.

Lemma pack_unsigned_frame_witness :
  is_unsigned_integral U32 = true /\ in_range U32 256 /\
  4 = 2 + 2 /\ 1 <= 2 <= sizeof U32 /\
  memcpy_from [Byte.xff; Byte.xff; Byte.x00; Byte.x01; Byte.x00; Byte.x00;
               Byte.xff] 2 (sizeof U32)
  = Some (le_split (Z.to_nat 2) 256
          ++ repeat Byte.x00 (Z.to_nat (sizeof U32 - 2))) /\
  (forall i, i < 2 \/ 2 + sizeof U32 <= i ->
     byte_at [Byte.xff; Byte.xff; Byte.x00; Byte.x01; Byte.x00; Byte.x00;
              Byte.xff] i
     = byte_at (repeat Byte.xff 7) i) /\
  len [Byte.xff; Byte.xff; Byte.x00; Byte.x01; Byte.x00; Byte.x00; Byte.xff]
  = len (repeat Byte.xff 7).
Proof.
  assert (Hr : in_range U32 256) by (unfold in_range; cbn; lia).
  split; [reflexivity | ]. split; [exact Hr | ].
  apply (pack_unsigned_frame U32 (repeat Byte.xff 7) 2 256 _ 4 2 eq_refl Hr).
  reflexivity.
Defined.




(** C10.  The signed [pack] overloads are guarded: they negate exactly
    when [-2^(8*(sizeof(T)-1)) < val < 0]; there the negation does not
    overflow, so with room in the buffer [pack] always returns; and the most
    negative value of [T] goes through the branch that stores the bit
    pattern by the unsigned [pack]. *)
Theorem signed_negation_guard (T : ctype) (buf : buffer) (cur v : Z) :
  is_signed T = true -> in_range T v ->
  0 <= cur -> cur + sizeof T <= len buf ->
  pack T buf cur v
  = (if keeps T v
     then pack_unsigned (stored_type T) buf cur (static_cast (stored_type T) v)
     else nval <- neg_signed (8 * sizeof T) v ;;
          r <- pack_unsigned (stored_type T) buf cur
                 (static_cast (stored_type T) nval) ;;
          Some (plus8 r)) /\
  (keeps T v = false <-> - 2 ^ (8 * (sizeof T - 1)) < v < 0) /\
  (keeps T v = false ->
     neg_signed (8 * sizeof T) v = Some (- v) /\ in_range T (- v)) /\
  (exists r, pack T buf cur v = Some r) /\
  keeps T (- 2 ^ (8 * sizeof T - 1)) = true /\
  pack T buf cur (- 2 ^ (8 * sizeof T - 1))
  = pack_unsigned (stored_type T) buf cur (2 ^ (8 * sizeof T - 1)).
Proof.
  intros HS Hr H0 H1.
  split; [destruct T; try discriminate; reflexivity | ].
  assert (Hiff : keeps T v = false <-> - 2 ^ (8 * (sizeof T - 1)) < v < 0).
  { rewrite keeps_negates, negb_false_iff, negates_spec by exact HS. tauto. }
  split; [exact Hiff | ].
  split.
  { intros Hk. rewrite keeps_negates, negb_false_iff in Hk by exact HS.
    split; [now apply neg_signed_negates | ].
    apply negates_spec in Hk. destruct Hk as [_ Hv].
    unfold in_range in *. rewrite HS in *.
    destruct T; try discriminate; cbn [sizeof] in *; lia. }
  split.
  { destruct (pack_ok T buf cur v H0 H1) as [buf' Hp]. eauto. }
  split; destruct T; try discriminate; reflexivity.
Qed.

Lemma signed_negation_guard_witness :
  in_range I64 (- 2 ^ 63) /\
  (keeps I64 (- 2 ^ 63) = false <->
     - 2 ^ (8 * (sizeof I64 - 1)) < - 2 ^ 63 < 0) /\
  (exists r, pack I64 (repeat Byte.x00 8) 0 (- 2 ^ 63) = Some r).
Proof.
  assert (Hr : in_range I64 (- 2 ^ 63)) by (unfold in_range; cbn; lia).
  split; [exact Hr | ].
  assert (H0 : 0 <= 0) by lia.
  assert (H1 : 0 + sizeof I64 <= len (repeat Byte.x00 8)) by (cbn; lia).
  destruct (signed_negation_guard I64 (repeat Byte.x00 8) 0 (- 2 ^ 63)
              eq_refl Hr H0 H1) as (_ & Hiff & _ & Hex & _).
  split; [exact Hiff | exact Hex].
Defined.

(** * Further properties of the header *)

(** ** pack *)

(** X1.  The store of [pack] stays inside the buffer exactly when there are
    [sizeof(T)] bytes of room at the cursor, however few bytes the value
    needs: the whole value is copied before the cursor is bumped. *)
Theorem pack_defined_iff_room (T : ctype) (buf : buffer) (cur v : Z) :
  (exists r, pack T buf cur v = Some r) <->
  0 <= cur /\ cur + sizeof T <= len buf.
Proof.
  split.
  - intros [[[buf' cur'] code] Hp]. apply pack_inv in Hp.
    destruct Hp as (Hm & _ & _). apply memcpy_to_bounds in Hm.
    rewrite length_object_bytes, sizeof_stored_type in Hm. lia.
  - intros [H0 H1]. destruct (pack_ok T buf cur v H0 H1) as [buf' Hp]. eauto.
Qed.

(** X2.  For every overload, [pack] moves the cursor by the width that
    the nibble of its code stands for (the code itself for every type but
    [long double]), between 1 and [sizeof(T)] bytes, keeps the length of
    the buffer, and changes no byte before the cursor nor [sizeof(T)] or
    more past it. *)
Theorem pack_frame (T : ctype) (buf : buffer) (cur v : Z)
        (buf' : buffer) (cur' code : Z) :
  in_range T v -> pack T buf cur v = Some (buf', cur', code) ->
  len buf' = len buf /\
  cur' - cur = nibble_width (as_nibble code) /\
  (T <> LDouble -> cur' - cur = nibble_width code) /\
  1 <= cur' - cur <= sizeof T /\
  forall i, i < cur \/ cur + sizeof T <= i -> byte_at buf' i = byte_at buf i.
Proof.
  intros Hr Hp. pose proof (encoded_width_bounds T v Hr) as Hw.
  apply pack_inv in Hp. destruct Hp as (Hm & -> & ->).
  pose proof (memcpy_to_bounds _ _ _ _ Hm) as (_ & _ & Hlen).
  split; [exact Hlen | ].
  split; [unfold encoded_width; lia | ].
  split.
  { intros HL. unfold encoded_width.
    rewrite (as_nibble_code_of T v HL). lia. }
  split; [lia | ].
  intros i Hi. apply (byte_at_memcpy_to_outside _ _ _ _ i Hm).
  rewrite length_object_bytes, sizeof_stored_type. exact Hi.
Qed.

Lemma pack_frame_witness :
  in_range I64 (-70000) /\
  len [Byte.xff; Byte.x70; Byte.x11; Byte.x01; Byte.x00; Byte.x00; Byte.x00;
       Byte.x00; Byte.x00; Byte.xff] = len (repeat Byte.xff 10) /\
  4 - 1 = nibble_width (as_nibble 11) /\
  (I64 <> LDouble -> 4 - 1 = nibble_width 11) /\ 1 <= 4 - 1 <= sizeof I64 /\
  forall i, i < 1 \/ 1 + sizeof I64 <= i ->
    byte_at [Byte.xff; Byte.x70; Byte.x11; Byte.x01; Byte.x00; Byte.x00;
             Byte.x00; Byte.x00; Byte.x00; Byte.xff] i
    = byte_at (repeat Byte.xff 10) i.
Proof.
  assert (Hr : in_range I64 (-70000)) by (unfold in_range; cbn; lia).
  split; [exact Hr | ].
  apply (pack_frame I64 (repeat Byte.xff 10) 1 (-70000) _ 4 11 Hr).
  reflexivity.
Defined.

(** X3.  The unsigned [pack] is monotone: a larger value never gets a
    smaller code, wherever the two values are packed. *)
Theorem pack_unsigned_monotone (T : ctype) (buf1 buf2 : buffer)
        (cur1 cur2 v1 v2 : Z) (buf1' buf2' : buffer)
        (cur1' cur2' code1 code2 : Z) :
  is_unsigned_integral T = true -> in_range T v2 -> 0 <= v1 <= v2 ->
  pack T buf1 cur1 v1 = Some (buf1', cur1', code1) ->
  pack T buf2 cur2 v2 = Some (buf2', cur2', code2) ->
  code1 <= code2.
Proof.
  intros HU Hr2 Hle Hp1 Hp2.
  assert (Hc : forall x b c k, pack T b c x = Some k -> snd k = numBytes x).
  { intros x b c [[b' c'] k] H. destruct T; try discriminate;
      cbn [pack] in H; unfold pack_unsigned in H;
      destruct (memcpy_to b c _); cbn [bind] in H; try discriminate;
      now injection H as <- <- <-. }
  apply Hc in Hp1, Hp2. cbn [snd] in Hp1, Hp2. subst code1 code2.
  assert (H64 : 0 <= v2 < 2 ^ 64).
  { unfold in_range in Hr2.
    destruct T; try discriminate; cbn [is_signed sizeof] in Hr2; lia. }
  pose proof (numBytes_fits v2 H64) as Hfit.
  pose proof (numBytes_range v2) as Hn.
  apply numBytes_least; lia.
Qed.

Lemma pack_unsigned_monotone_witness :
  in_range U32 65536 /\ 0 <= 255 <= 65536 /\ 1 <= 3.
Proof.
  assert (Hr : in_range U32 65536) by (unfold in_range; cbn; lia).
  assert (Hle : 0 <= 255 <= 65536) by lia.
  split; [exact Hr | ]. split; [exact Hle | ].
  apply (pack_unsigned_monotone U32 (repeat Byte.x00 4) (repeat Byte.x00 6)
           0 2 255 65536
           [Byte.xff; Byte.x00; Byte.x00; Byte.x00]
           [Byte.x00; Byte.x00; Byte.x00; Byte.x00; Byte.x01; Byte.x00]
           1 5 1 3 eq_refl Hr Hle); reflexivity.
Defined.

(** X4.  In the signed overloads a negative value of small magnitude is the
    mirror of its positive: [pack] of [-v] stores the same bytes and moves
    the cursor as [pack] of [v] does, and returns its code plus 8. *)
Theorem pack_negated_mirror (T : ctype) (buf : buffer) (cur v : Z) :
  is_signed T = true -> 0 < v < 2 ^ (8 * (sizeof T - 1)) ->
  pack T buf cur (- v) = option_map plus8 (pack T buf cur v).
Proof.
  intros HS Hv.
  assert (HF : is_floating_point T = false)
    by (destruct T; try discriminate; reflexivity).
  assert (Hn1 : negates T (- v) = true)
    by (apply negates_spec; split; [assumption | lia]).
  assert (Hn0 : negates T v = false).
  { destruct (negates T v) eqn:E; [ | reflexivity].
    apply negates_spec in E. lia. }
  assert (Hsv : stored_value T (- v) = stored_value T v).
  { destruct T; try discriminate; cbn [stored_value];
      rewrite Hn1, Hn0, Z.opp_involutive; reflexivity. }
  rewrite !pack_eq, !encoded_width_eq. unfold code_of.
  rewrite HF, Hn1, Hn0, Hsv.
  destruct (memcpy_to buf cur _); reflexivity.
Qed.

Lemma pack_negated_mirror_witness :
  pack I32 (repeat Byte.xff 5) 1 (- 300)
  = option_map plus8 (pack I32 (repeat Byte.xff 5) 1 300).
Proof.
  apply (pack_negated_mirror I32 (repeat Byte.xff 5) 1 300 eq_refl).
  cbn. lia.
Defined.

(** ** unpack *)

(** The integral [unpack] on bytes it can read: the accumulator is the
    little-endian number of the bytes, negated for a code above 8. *)
Lemma unpack_integral_of_bytes (T : ctype) (mem : buffer) (cur c : Z)
      (bs : list byte) :
  is_floating_point T = false -> 0 <= c <= 15 ->
  memcpy_from mem cur (if c <=? 8 then c else c - 8) = Some bs ->
  unpack_integral T mem cur c
  = (Some (static_cast T (if c <=? 8 then le_combine bs else - le_combine bs)),
     cur + (if c <=? 8 then c else c - 8)).
Proof.
  intros HF Hc Hbs. unfold unpack_integral, load_packed.
  pose proof (memcpy_from_length _ _ _ _ Hbs) as (_ & _ & _ & Hlen).
  pose proof (le_combine_bound bs) as Hb.
  destruct (Z.leb_spec c 8).
  - rewrite Hbs. cbn [bind]. now rewrite static_cast_to_signed64 by exact HF.
  - destruct (Z.eqb_spec c 0); [lia | ].
    rewrite land_15_small by lia.
    destruct (Z.leb_spec (c - 8) 8); [ | lia].
    rewrite Hbs. cbn [bind].
    assert (Hsmall : 2 ^ (8 * Z.of_nat (length bs)) <= 2 ^ 56)
      by (apply Z.pow_le_mono_r; unfold len in Hlen; lia).
    rewrite to_signed_small by lia.
    unfold neg_signed.
    destruct (Z.eqb_spec (le_combine bs) (- 2 ^ (64 - 1))); [lia | ].
    reflexivity.
Qed.

(** X5.  Decoding any nibble with an integral or pointer type: when the
    bytes the code announces are in the buffer, [unpack<T>] is defined; for
    a code up to 8 it returns the little-endian number of that many bytes
    cast to [T] (the rest of the accumulator is zero), for a code above 8
    the cast of its negation, [code - 8] bytes being read. *)
Theorem unpack_integral_value (float_to : ctype -> Z -> Z) (T : ctype)
        (mem : buffer) (cur c : Z) (bs : list byte) :
  is_floating_point T = false -> 0 <= c <= 15 ->
  memcpy_from mem cur (if c <=? 8 then c else c - 8) = Some bs ->
  unpack float_to T mem cur c
  = Some (Some (static_cast T
                  (if c <=? 8 then le_combine bs else - le_combine bs)),
          cur + (if c <=? 8 then c else c - 8)) /\
  0 <= le_combine bs < 2 ^ (8 * (if c <=? 8 then c else c - 8)).
Proof.
  intros HF Hc Hbs. rewrite unpack_not_floating by exact HF.
  split; [f_equal; now apply unpack_integral_of_bytes | ].
  pose proof (memcpy_from_length _ _ _ _ Hbs) as (_ & _ & _ & Hlen).
  pose proof (le_combine_bound bs) as Hb. unfold len in Hlen.
  now rewrite Hlen in Hb.
Qed.

Lemma unpack_integral_value_witness :
  unpack (fun _ z => z) I64 [Byte.xaa; Byte.x2c; Byte.x01; Byte.xbb] 1 10
  = Some (Some (static_cast I64
                  (if 10 <=? 8 then le_combine [Byte.x2c; Byte.x01]
                   else - le_combine [Byte.x2c; Byte.x01])),
          1 + (if 10 <=? 8 then 10 else 10 - 8)) /\
  0 <= le_combine [Byte.x2c; Byte.x01]
    < 2 ^ (8 * (if 10 <=? 8 then 10 else 10 - 8)).
Proof.
  apply (unpack_integral_value (fun _ z => z) I64
           [Byte.xaa; Byte.x2c; Byte.x01; Byte.xbb] 1 10
           [Byte.x2c; Byte.x01] eq_refl).
  - lia.
  - reflexivity.
Defined.

(** X6.  A value packed by the unsigned or the pointer overload is given
    back by [unpack<U>] for every integral or pointer type [U] that holds
    it, narrower or wider than the type it was packed from. *)
Theorem unsigned_pack_unpack_any_type (float_to : ctype -> Z -> Z)
        (T U : ctype) (buf : buffer) (cur v : Z) :
  is_unsigned_integral T || is_pointer T = true ->
  is_floating_point U = false ->
  in_range T v -> in_range U v ->
  0 <= cur -> cur + sizeof T <= len buf ->
  exists buf' cur' code,
    pack T buf cur v = Some (buf', cur', code) /\
    unpack float_to U buf' cur code = Some (Some v, cur').
Proof.
  intros HT HU HrT HrU H0 H1.
  destruct (pack_ok T buf cur v H0 H1) as [buf' Hp].
  exists buf', (cur + encoded_width T v), (code_of T v).
  split; [exact Hp | ].
  pose proof (pack_reads_back _ _ _ _ _ _ _ HrT Hp) as Hback.
  pose proof (le_combine_encoded T v HrT) as Hle.
  assert (HS : is_signed T = false)
    by (destruct T; try discriminate; reflexivity).
  assert (HF : is_floating_point T = false)
    by (destruct T; try discriminate; reflexivity).
  assert (Hneg : negates T v = false) by (unfold negates; now rewrite HS).
  rewrite stored_value_unsigned in Hle by assumption.
  pose proof (code_of_direct T v HrT HF Hneg) as Hc.
  assert (Hw : encoded_width T v = code_of T v).
  { rewrite encoded_width_eq, HF. unfold code_of. now rewrite HF, Hneg. }
  rewrite Hw in *.
  assert (Hle8 : (code_of T v <=? 8) = true)
    by (apply Z.leb_le; destruct (sizeof_integral T HF); lia).
  rewrite unpack_not_floating by exact HU.
  rewrite (unpack_integral_of_bytes U buf' cur (code_of T v)
             (encoded_bytes T v));
    [ | exact HU | destruct (sizeof_integral T HF); lia | now rewrite Hle8].
  rewrite Hle8, Hle. now rewrite static_cast_in_range.
Qed.

Lemma unsigned_pack_unpack_any_type_witness :
  in_range U64 200 /\ in_range U8 200 /\
  exists buf' cur' code,
    pack U64 (repeat Byte.x00 8) 0 200 = Some (buf', cur', code) /\
    unpack (fun _ z => z) U8 buf' 0 code = Some (Some 200, cur').
Proof.
  assert (HrT : in_range U64 200) by (unfold in_range; cbn; lia).
  assert (HrU : in_range U8 200) by (unfold in_range; cbn; lia).
  split; [exact HrT | ]. split; [exact HrU | ].
  apply (unsigned_pack_unpack_any_type (fun _ z => z) U64 U8
           (repeat Byte.x00 8) 0 200 eq_refl eq_refl HrT HrU); cbn; lia.
Defined.

(** X7.  The type given to [unpack] has to be the one given to [pack]: an
    [int32_t] decoded as [int64_t] comes back right when it is non-negative
    or was negated, and comes back as [v + 2^32] when [pack] kept its bit
    pattern ([v <= -2^24]). *)
Theorem int32_unpacked_as_int64 (float_to : ctype -> Z -> Z) (buf : buffer)
        (cur v : Z) :
  in_range I32 v -> 0 <= cur -> cur + sizeof I32 <= len buf ->
  exists buf' cur' code,
    pack I32 buf cur v = Some (buf', cur', code) /\
    unpack float_to I64 buf' cur code
    = Some (Some (if v <=? - 2 ^ 24 then v + 2 ^ 32 else v), cur').
Proof.
  intros Hr H0 H1.
  destruct (pack_ok I32 buf cur v H0 H1) as [buf' Hp].
  exists buf', (cur + encoded_width I32 v), (code_of I32 v).
  split; [exact Hp | ].
  pose proof (pack_reads_back _ _ _ _ _ _ _ Hr Hp) as Hback.
  pose proof (le_combine_encoded I32 v Hr) as Hle.
  destruct (code_of_range I32 v Hr) as [Hc1 Hc].
  specialize (Hc ltac:(discriminate)).
  pose proof (encoded_width_bounds I32 v Hr) as Hw.
  rewrite stored_value_signed in Hle by (reflexivity || assumption).
  unfold in_range in Hr. cbn [is_signed sizeof] in Hr, Hw, Hle.
  assert (Hwidth : encoded_width I32 v
                   = if code_of I32 v <=? 8 then code_of I32 v
                     else code_of I32 v - 8).
  { unfold encoded_width. rewrite as_nibble_code_of by discriminate.
    unfold nibble_width. destruct (Z.eqb_spec (code_of I32 v) 0); [lia | ].
    reflexivity. }
  rewrite unpack_not_floating by reflexivity.
  rewrite (unpack_integral_of_bytes I64 buf' cur (code_of I32 v)
             (encoded_bytes I32 v));
    [ | reflexivity | lia | now rewrite <- Hwidth].
  rewrite <- Hwidth, Hle. do 3 f_equal.
  destruct (negates I32 v) eqn:Hneg.
  - pose proof (code_of_negating I32 v ltac:(unfold in_range; cbn; lia) Hneg)
      as [_ Hcode].
    apply negates_spec in Hneg. destruct Hneg as [_ Hv]. cbn [sizeof] in Hv.
    destruct (Z.leb_spec (code_of I32 v) 8); [lia | ].
    destruct (Z.leb_spec v (- 2 ^ 24)); [lia | ].
    rewrite Z.opp_involutive. apply static_cast_in_range.
    unfold in_range. cbn. lia.
  - pose proof (code_of_direct I32 v ltac:(unfold in_range; cbn; lia)
                  eq_refl Hneg) as Hcode.
    cbn [sizeof] in Hcode.
    destruct (Z.leb_spec (code_of I32 v) 8); [ | lia].
    assert (Hnv : ~ (- 2 ^ 24 < v < 0)).
    { intros Hv. assert (negates I32 v = true)
        by (apply negates_spec; split; [reflexivity | exact Hv]).
      congruence. }
    destruct (Z.leb_spec 0 v); destruct (Z.leb_spec v (- 2 ^ 24)); try lia;
      apply static_cast_in_range; unfold in_range; cbn; lia.
Qed.

Lemma int32_unpacked_as_int64_witness :
  in_range I32 (- 2 ^ 31) /\
  exists buf' cur' code,
    pack I32 (repeat Byte.x00 4) 0 (- 2 ^ 31) = Some (buf', cur', code) /\
    unpack (fun _ z => z) I64 buf' 0 code
    = Some (Some (if - 2 ^ 31 <=? - 2 ^ 24
                  then - 2 ^ 31 + 2 ^ 32 else - 2 ^ 31),
            cur').
Proof.
  assert (Hr : in_range I32 (- 2 ^ 31)) by (unfold in_range; cbn; lia).
  split; [exact Hr | ].
  apply (int32_unpacked_as_int64 (fun _ z => z) (repeat Byte.x00 4) 0
           (- 2 ^ 31) Hr); cbn; lia.
Defined.

(** X8.  A [long double] goes through the nibble 0: [pack] stores its 16
    bytes, moves the cursor by 16 and returns 16, of which a 4-bit nibble
    keeps 0; [unpack<long double>] with the nibble 0 reads the 16 bytes,
    returns the value and stops where [pack] stopped, and the size
    calculator counts 16 bytes for that nibble. *)
Theorem long_double_nibble_round_trip (float_to : ctype -> Z -> Z)
        (buf : buffer) (cur v : Z) :
  in_range LDouble v -> 0 <= cur -> cur + sizeof LDouble <= len buf ->
  exists buf',
    pack LDouble buf cur v = Some (buf', cur + 16, 16) /\
    as_nibble 16 = 0 /\
    unpack float_to LDouble buf' cur (as_nibble 16) = Some (Some v, cur + 16) /\
    getSizeOfPackedValues [byte.of_Z (as_nibble 16)] 0 1 = Some 16.
Proof.
  intros Hr H0 H1. destruct (pack_ok LDouble buf cur v H0 H1) as [buf' Hp].
  pose proof (pack_reads_back _ _ _ _ _ _ _ Hr Hp) as Hback.
  pose proof (unpack_encoded_nibble float_to LDouble buf' cur v Hr Hback)
    as Hu.
  rewrite encoded_width_eq in Hp, Hu. cbn [is_floating_point sizeof] in Hp, Hu.
  rewrite (code_of_floating LDouble v eq_refl) in Hp, Hu.
  cbn [sizeof] in Hp, Hu.
  exists buf'. split; [exact Hp | ]. split; [reflexivity | ].
  split; [exact Hu | reflexivity].
Qed.

Lemma long_double_nibble_round_trip_witness :
  in_range LDouble 302222231531620438900736 /\
  exists buf',
    pack LDouble (repeat Byte.xff 18) 1 302222231531620438900736
    = Some (buf', 1 + 16, 16) /\
    as_nibble 16 = 0 /\
    unpack (fun _ z => z) LDouble buf' 1 (as_nibble 16)
    = Some (Some 302222231531620438900736, 1 + 16) /\
    getSizeOfPackedValues [byte.of_Z (as_nibble 16)] 0 1 = Some 16.
Proof.
  assert (Hr : in_range LDouble 302222231531620438900736)
    by (unfold in_range; cbn; lia).
  split; [exact Hr | ].
  apply (long_double_nibble_round_trip (fun _ z => z) (repeat Byte.xff 18) 1
           302222231531620438900736 Hr); cbn; lia.
Defined.

(** ** getSizeOfPackedValues on any nibbles *)

Lemma first_range (b : byte) : 0 <= first b <= 15.
Proof.
  unfold first.
  change (Z.land (byte.unsigned b) 15)
    with (Z.land (byte.unsigned b) (Z.ones 4)).
  rewrite Z.land_ones by lia.
  pose proof (Z.mod_pos_bound (byte.unsigned b) (2 ^ 4) ltac:(lia)). lia.
Qed.

Lemma second_range (b : byte) : 0 <= second b <= 15.
Proof.
  unfold second. rewrite Z.shiftr_div_pow2 by lia.
  pose proof (byte.unsigned_range b) as Hb.
  change (2 ^ 8) with 256 in Hb. change (2 ^ 4) with 16.
  split; [apply Z.div_pos; lia | ].
  enough (byte.unsigned b / 16 < 16) by lia.
  apply Z.div_lt_upper_bound; lia.
Qed.

Lemma nibbles_of_range (bs : list byte) :
  Forall (fun c => 0 <= c <= 15) (nibbles_of bs).
Proof.
  induction bs as [ | b bs IH]; cbn; [constructor | ].
  constructor; [apply first_range | ].
  constructor; [apply second_range | exact IH].
Qed.

Lemma Forall_firstn (A : Type) (P : A -> Prop) (n : nat) :
  forall l, Forall P l -> Forall P (firstn n l).
Proof.
  induction n as [ | n IH]; intros l H; [constructor | ].
  destruct H as [ | x l Hx Hl]; cbn [firstn]; constructor; auto.
Qed.

Lemma length_nibbles_of (bs : list byte) :
  length (nibbles_of bs) = (2 * length bs)%nat.
Proof. induction bs as [ | b bs IH]; cbn [nibbles_of flat_map app length] in *; [reflexivity | ].
  unfold nibbles_of in IH. rewrite IH. lia.
Qed.

Lemma nibbles_of_nth (bs : list byte) :
  forall j b, nth_error bs (j / 2) = Some b ->
    nth_error (nibbles_of bs) j
    = Some (if Nat.even j then first b else second b).
Proof.
  induction bs as [ | x bs IH]; intros j b Hj.
  - destruct (j / 2)%nat; discriminate.
  - destruct j as [ | [ | j]].
    + cbn in Hj |- *. now injection Hj as <-.
    + cbn in Hj |- *. now injection Hj as <-.
    + assert (Hd : (S (S j) / 2 = S (j / 2))%nat).
      { replace (S (S j)) with (1 * 2 + j)%nat by lia.
        rewrite Nat.div_add_l by lia. lia. }
      rewrite Hd in Hj. cbn [nth_error] in Hj.
      change (nibbles_of (x :: bs))
        with (first x :: second x :: nibbles_of bs).
      cbn [nth_error]. rewrite (IH j b Hj). reflexivity.
Qed.

Lemma even_to_nat (k : Z) : 0 <= k -> Nat.even (Z.to_nat k) = Z.even k.
Proof.
  intros Hk. rewrite <- (Z2Nat.id k) at 2 by lia.
  generalize (Z.to_nat k). intros n.
  induction n as [ | n IHn]; [reflexivity | ].
  rewrite Nat2Z.inj_succ, Z.even_succ, Nat.even_succ.
  rewrite <- Z.negb_even, <- Nat.negb_even. now rewrite IHn.
Qed.

(** The nibbles of a memory that holds the bytes [bs] at [len pre]. *)
Lemma nibble_at_bytes (pre bs post : buffer) (k : Z) :
  0 <= k < 2 * len bs ->
  nibble_at (pre ++ bs ++ post) (len pre) k
  = nth_error (nibbles_of bs) (Z.to_nat k).
Proof.
  intros Hk. pose proof (len_nonneg pre) as Hpre.
  assert (Hq : 0 <= k / 2 < len bs).
  { split; [apply Z.div_pos; lia | apply Z.div_lt_upper_bound; lia]. }
  unfold len in *.
  destruct (nth_error bs (Z.to_nat (k / 2))) as [b | ] eqn:Hb;
    [ | apply nth_error_None in Hb; lia].
  assert (Hdiv : (Z.to_nat k / 2)%nat = Z.to_nat (k / 2)).
  { apply Nat2Z.inj. rewrite Nat2Z.inj_div, !Z2Nat.id by lia. reflexivity. }
  rewrite (nibbles_of_nth bs (Z.to_nat k) b) by (now rewrite Hdiv).
  rewrite even_to_nat by lia.
  unfold nibble_at, byte_at.
  destruct (Z.leb_spec 0 (Z.of_nat (length pre) + k / 2)); [ | lia].
  rewrite nth_error_app2 by lia.
  replace (Z.to_nat (Z.of_nat (length pre) + k / 2) - length pre)%nat
    with (Z.to_nat (k / 2)) by lia.
  rewrite nth_error_app1 by lia. rewrite Hb. reflexivity.
Qed.

Lemma nibble_width_range (c : Z) : 0 <= c <= 15 -> 1 <= nibble_width c <= 16.
Proof.
  intros Hc. unfold nibble_width.
  destruct (Z.eqb_spec c 0); [lia | ]. destruct (Z.leb_spec c 8); lia.
Qed.

Lemma sum_widths_bounds (l : list Z) :
  Forall (fun c => 0 <= c <= 15) l ->
  Z.of_nat (length l) <= sum_widths l <= 16 * Z.of_nat (length l).
Proof.
  unfold sum_widths.
  induction 1 as [ | c l Hc _ IH]; cbn [fold_right length]; [lia | ].
  pose proof (nibble_width_range c Hc). lia.
Qed.

(** The calculator on [N] nibbles of any bytes. *)
Lemma getSizeOfPackedValues_of_bytes (pre bs post : buffer) (N : Z) :
  0 <= N -> (N + 1) / 2 <= len bs ->
  getSizeOfPackedValues (pre ++ bs ++ post) (len pre) N
  = Some (uint32_t (sum_widths (firstn (Z.to_nat N) (nibbles_of bs)))).
Proof.
  intros HN Hlen.
  assert (HN2 : N <= 2 * len bs)
    by (pose proof (Z.div_mod (N + 1) 2 ltac:(lia));
        pose proof (Z.mod_pos_bound (N + 1) 2 ltac:(lia)); lia).
  set (codes := firstn (Z.to_nat N) (nibbles_of bs)).
  assert (Hcodes : length codes = Z.to_nat N).
  { unfold codes. rewrite length_firstn, length_nibbles_of.
    unfold len in HN2. lia. }
  replace N with (Z.of_nat (length codes)) at 1 by lia.
  apply getSizeOfPackedValues_spec.
  - unfold codes. apply Forall_firstn, nibbles_of_range.
  - intros k Hk. rewrite nibble_at_bytes by lia.
    unfold codes. rewrite nth_error_firstn.
    destruct (Nat.ltb_spec (Z.to_nat k) (Z.to_nat N)); [reflexivity | lia].
Qed.

(** X9.  On any bytes, [getSizeOfPackedValues] over [N] nibbles returns the
    sum, reduced to 32 bits, of the widths of the first [N] nibbles (16 for
    the nibble 0, the nibble up to 8, the nibble minus 8 above), whatever
    the unused half of the last byte and the bytes around are; every nibble
    counts for 1 to 16 bytes. *)
Theorem getSizeOfPackedValues_sum (pre bs post : buffer) (N : Z) :
  0 <= N -> (N + 1) / 2 <= len bs ->
  getSizeOfPackedValues (pre ++ bs ++ post) (len pre) N
  = Some (uint32_t (sum_widths (firstn (Z.to_nat N) (nibbles_of bs)))) /\
  N <= sum_widths (firstn (Z.to_nat N) (nibbles_of bs)) <= 16 * N.
Proof.
  intros HN Hlen. split; [now apply getSizeOfPackedValues_of_bytes | ].
  assert (HN2 : N <= 2 * len bs)
    by (pose proof (Z.div_mod (N + 1) 2 ltac:(lia));
        pose proof (Z.mod_pos_bound (N + 1) 2 ltac:(lia)); lia).
  pose proof (sum_widths_bounds (firstn (Z.to_nat N) (nibbles_of bs))) as Hb.
  rewrite length_firstn, length_nibbles_of in Hb. unfold len in HN2.
  replace (Z.of_nat (Init.Nat.min (Z.to_nat N) (2 * length bs))) with N in Hb
    by lia.
  apply Hb. apply Forall_firstn, nibbles_of_range.
Qed.

Lemma getSizeOfPackedValues_sum_witness :
  getSizeOfPackedValues ([Byte.xee] ++ [Byte.x90; Byte.xf3] ++ [Byte.xee])
    (len [Byte.xee]) 3
  = Some (uint32_t (sum_widths (firstn (Z.to_nat 3)
                                  (nibbles_of [Byte.x90; Byte.xf3])))) /\
  3 <= sum_widths (firstn (Z.to_nat 3) (nibbles_of [Byte.x90; Byte.xf3]))
    <= 16 * 3.
Proof.
  apply (getSizeOfPackedValues_sum [Byte.xee] [Byte.x90; Byte.xf3]
           [Byte.xee] 3).
  - lia.
  - cbn. lia.
Defined.

Lemma byte_at_Some (mem : buffer) (k : Z) (b : byte) :
  byte_at mem k = Some b -> 0 <= k < len mem.
Proof.
  unfold byte_at, len. destruct (Z.leb_spec 0 k); [ | discriminate].
  intros Hb. assert (Hn : nth_error mem (Z.to_nat k) <> None) by congruence.
  apply nth_error_Some in Hn. lia.
Qed.

(** The loop reads the bytes [nibbles + i .. nibbles + i + todo - 1]. *)
Lemma size_loop_reads (mem : buffer) (nibbles : Z) (todo : nat) :
  forall i size r,
    size_loop todo mem nibbles i size = Some r -> (0 < todo)%nat ->
    0 <= nibbles + i /\ nibbles + i + Z.of_nat todo <= len mem.
Proof.
  induction todo as [ | todo IH]; intros i size r H Hpos; [lia | ].
  cbn [size_loop] in H.
  destruct (byte_at mem (nibbles + i)) as [b | ] eqn:Hb; cbn [bind] in H;
    [ | discriminate].
  apply byte_at_Some in Hb.
  destruct todo as [ | todo']; [lia | ].
  specialize (IH _ _ _ H ltac:(lia)). lia.
Qed.

(** When the calculator returns, the nibble bytes are inside the memory. *)
Lemma getSizeOfPackedValues_in_memory (mem : buffer) (nibbles N size : Z) :
  0 < N -> getSizeOfPackedValues mem nibbles N = Some size ->
  0 <= nibbles /\ nibbles + (N + 1) / 2 <= len mem.
Proof.
  intros HN H. unfold getSizeOfPackedValues in H.
  pose proof (Z.div_mod N 2 ltac:(lia)) as Hdm.
  pose proof (Z.mod_pos_bound N 2 ltac:(lia)) as Hmb.
  assert (Hq : 0 <= N / 2) by (apply Z.div_pos; lia).
  destruct (size_loop (Z.to_nat (N / 2)) mem nibbles 0 0) as [sz | ] eqn:Hl;
    cbn [bind] in H; [ | discriminate].
  replace (Z.land N 1) with (N mod 2) in H
    by (change (N mod 2 ^ 1 = Z.land N (Z.ones 1)); symmetry;
        apply Z.land_ones; lia).
  assert (Hloop : 0 < N / 2 -> 0 <= nibbles /\ nibbles + N / 2 <= len mem).
  { intros Hpos. assert (Hnat : (0 < Z.to_nat (N / 2))%nat) by lia.
    pose proof (size_loop_reads _ _ _ _ _ _ Hl Hnat). lia. }
  destruct (Z.eqb_spec (N mod 2) 0) as [He | Ho]; cbn [negb] in H.
  - replace ((N + 1) / 2) with (N / 2)
      by (apply Z.div_unique with (r := 1); lia).
    apply Hloop. lia.
  - replace ((N + 1) / 2) with (N / 2 + 1)
      by (apply Z.div_unique with (r := 0); lia).
    destruct (byte_at mem (nibbles + N / 2)) as [b | ] eqn:Hb;
      cbn [bind] in H; [ | discriminate].
    apply byte_at_Some in Hb.
    destruct (Z.eq_dec (N / 2) 0) as [E | E].
    + rewrite E in Hb. lia.
    + specialize (Hloop ltac:(lia)). lia.
Qed.

(** The calculator at any offset of a memory that holds the nibble bytes. *)
Lemma getSizeOfPackedValues_at (mem : buffer) (nibbles N : Z) :
  0 <= N -> 0 <= nibbles -> nibbles + (N + 1) / 2 <= len mem ->
  getSizeOfPackedValues mem nibbles N
  = Some (uint32_t (sum_widths
            (firstn (Z.to_nat N)
               (nibbles_of (skipn (Z.to_nat nibbles) mem))))).
Proof.
  intros HN Hp Hlen.
  assert (Hq : 0 <= (N + 1) / 2) by (apply Z.div_pos; lia).
  pose proof (getSizeOfPackedValues_of_bytes
                (firstn (Z.to_nat nibbles) mem)
                (skipn (Z.to_nat nibbles) mem) [] N HN) as H.
  rewrite app_nil_r, firstn_skipn in H.
  replace (len (firstn (Z.to_nat nibbles) mem)) with nibbles in H
    by (unfold len in *; rewrite length_firstn; lia).
  apply H. unfold len in *. rewrite length_skipn. lia.
Qed.

(** X10.  [getSizeOfPackedValues] over [N > 0] nibbles reads the
    [ceil(N/2)] bytes at [nibbles] and nothing else: it is defined exactly
    when those bytes lie inside the memory. *)
Theorem getSizeOfPackedValues_defined_iff (mem : buffer) (nibbles N : Z) :
  0 < N ->
  ((exists size, getSizeOfPackedValues mem nibbles N = Some size) <->
   0 <= nibbles /\ nibbles + (N + 1) / 2 <= len mem).
Proof.
  intros HN. split.
  - intros [size H]. now apply (getSizeOfPackedValues_in_memory mem nibbles N size).
  - intros [H0 H1]. rewrite getSizeOfPackedValues_at by lia. eauto.
Qed.

Lemma getSizeOfPackedValues_defined_iff_witness :
  (exists size,
     getSizeOfPackedValues [Byte.x00; Byte.x21; Byte.x03] 1 3 = Some size) <->
  0 <= 1 /\ 1 + (3 + 1) / 2 <= len [Byte.x00; Byte.x21; Byte.x03].
Proof.
  apply (getSizeOfPackedValues_defined_iff [Byte.x00; Byte.x21; Byte.x03] 1 3).
  lia.
Defined.

Lemma uint32_t_add (a b : Z) :
  uint32_t (a + b) = uint32_t (uint32_t a + uint32_t b).
Proof. uint32_solve. Qed.

Lemma firstn_add (A : Type) (a b : nat) :
  forall l : list A, firstn (a + b) l = firstn a l ++ firstn b (skipn a l).
Proof.
  induction a as [ | a IH]; intros l; [reflexivity | ].
  destruct l as [ | x l]; cbn [Nat.add firstn skipn app].
  - now rewrite firstn_nil.
  - now rewrite IH.
Qed.

Lemma nibbles_of_skipn (m : nat) :
  forall bs, nibbles_of (skipn m bs) = skipn (2 * m) (nibbles_of bs).
Proof.
  induction m as [ | m IH]; intros bs; [reflexivity | ].
  destruct bs as [ | b bs]; [reflexivity | ].
  replace (2 * S m)%nat with (S (S (2 * m))) by lia.
  change (nibbles_of (b :: bs)) with (first b :: second b :: nibbles_of bs).
  cbn [skipn]. apply IH.
Qed.

(** X11.  The size of a run is the sum of the sizes of its parts: when the
    calculator returns [s] on [2*m + N] nibbles, it returns on the first
    [2*m] nibbles and on the [N] nibbles that start [m] bytes further, and
    [s] is the 32-bit sum of the two results. *)
Theorem getSizeOfPackedValues_split (mem : buffer) (nibbles m N s : Z) :
  0 <= m -> 0 <= N ->
  getSizeOfPackedValues mem nibbles (2 * m + N) = Some s ->
  exists s1 s2,
    getSizeOfPackedValues mem nibbles (2 * m) = Some s1 /\
    getSizeOfPackedValues mem (nibbles + m) N = Some s2 /\
    s = uint32_t (s1 + s2).
Proof.
  intros Hm HN H.
  destruct (Z.eq_dec (2 * m + N) 0) as [E0 | E0].
  { assert (m = 0) by lia. assert (N = 0) by lia. subst m N.
    cbn in H. injection H as <-. exists 0, 0. repeat split. }
  assert (Hpos : 0 < 2 * m + N) by lia.
  pose proof (getSizeOfPackedValues_in_memory _ _ _ _ Hpos H) as [Hp0 Hp1].
  assert (Hhalf : (2 * m + N + 1) / 2 = m + (N + 1) / 2).
  { replace (2 * m + N + 1) with (N + 1 + m * 2) by lia.
    rewrite Z.div_add by lia. lia. }
  assert (Hq : 0 <= (N + 1) / 2) by (apply Z.div_pos; lia).
  rewrite getSizeOfPackedValues_at in H by lia.
  assert (Hs : s = uint32_t (sum_widths
                 (firstn (Z.to_nat (2 * m + N))
                    (nibbles_of (skipn (Z.to_nat nibbles) mem)))))
    by congruence.
  clear H. subst s.
  rewrite (getSizeOfPackedValues_at mem nibbles (2 * m));
    [ | lia | lia | ].
  2: { replace ((2 * m + 1) / 2) with m
         by (apply Z.div_unique with (r := 1); lia).
       lia. }
  rewrite (getSizeOfPackedValues_at mem (nibbles + m) N) by lia.
  replace (Z.to_nat (nibbles + m)) with (Z.to_nat m + Z.to_nat nibbles)%nat
    by lia.
  rewrite <- skipn_skipn.
  rewrite (nibbles_of_skipn (Z.to_nat m) (skipn (Z.to_nat nibbles) mem)).
  set (nl := nibbles_of (skipn (Z.to_nat nibbles) mem)).
  do 2 eexists. split; [reflexivity | ]. split; [reflexivity | ].
  replace (Z.to_nat (2 * m + N)) with (Z.to_nat (2 * m) + Z.to_nat N)%nat
    by lia.
  rewrite firstn_add, sum_widths_app.
  replace (2 * Z.to_nat m)%nat with (Z.to_nat (2 * m)) by lia.
  apply uint32_t_add.
Qed.

Lemma getSizeOfPackedValues_split_witness :
  exists s1 s2,
    getSizeOfPackedValues [Byte.x21; Byte.x08; Byte.x0b] 0 (2 * 1) = Some s1 /\
    getSizeOfPackedValues [Byte.x21; Byte.x08; Byte.x0b] (0 + 1) 3 = Some s2 /\
    30 = uint32_t (s1 + s2).
Proof.
  apply (getSizeOfPackedValues_split [Byte.x21; Byte.x08; Byte.x0b] 0 1 3 30).
  - lia.
  - lia.
  - reflexivity.
Defined.

(** ** Runs of values and the Nibbler *)

Lemma sum_sizeof_cons (T : ctype) (v : Z) (vs : list (ctype * Z)) :
  sum_sizeof ((T, v) :: vs) = sizeof T + sum_sizeof vs.
Proof. reflexivity. Qed.

Lemma sum_sizeof_nonneg (vs : list (ctype * Z)) : 0 <= sum_sizeof vs.
Proof.
  induction vs as [ | [T v] vs IH]; [cbn; lia | ].
  rewrite sum_sizeof_cons. destruct (sizeof_cases T); lia.
Qed.

(** X12.  A run of values needs no more room than their types: with
    [sizeof] bytes for each value from the cursor on, all the pack calls
    return, one code each, and the cursor ends at least one byte per value
    further and at most the sum of the [sizeof]s further. *)
Theorem pack_sequence_room (vs : list (ctype * Z)) (buf : buffer) (cur : Z) :
  Forall value_in_range vs -> 0 <= cur -> cur + sum_sizeof vs <= len buf ->
  exists buf' cur' codes,
    pack_sequence vs buf cur = Some (buf', cur', codes) /\
    length codes = length vs /\
    cur + Z.of_nat (length vs) <= cur' <= cur + sum_sizeof vs.
Proof.
  revert buf cur.
  induction vs as [ | [T v] vs IH]; intros buf cur Hr H0 H1.
  - exists buf, cur, []. cbn. repeat split; lia.
  - inversion Hr as [ | ? ? Hv Hr']; subst. change (in_range T v) in Hv.
    rewrite sum_sizeof_cons in H1 |- *.
    pose proof (sum_sizeof_nonneg vs) as Hrest.
    pose proof (encoded_width_bounds T v Hv) as Hw.
    assert (Hroom : cur + sizeof T <= len buf) by lia.
    destruct (pack_ok T buf cur v H0 Hroom) as [buf1 Hp].
    pose proof (pack_inv _ _ _ _ _ _ _ Hp) as (Hm & _ & _).
    apply memcpy_to_bounds in Hm. destruct Hm as (_ & _ & Hlen).
    destruct (IH buf1 (cur + encoded_width T v) Hr')
      as (buf' & cur' & codes & Hs & Hl & Hc); [lia | lia | ].
    exists buf', cur', (code_of T v :: codes).
    cbn [pack_sequence]. rewrite Hp. cbn [bind]. rewrite Hs. cbn [bind].
    cbn [length]. repeat split; lia.
Qed.

Lemma pack_sequence_room_witness :
  Forall value_in_range [(U16, 7); (I64, -1); (F32, 1078530011)] /\
  exists buf' cur' codes,
    pack_sequence [(U16, 7); (I64, -1); (F32, 1078530011)]
      (repeat Byte.x00 15) 1 = Some (buf', cur', codes) /\
    length codes = length [(U16, 7); (I64, -1); (F32, 1078530011)] /\
    1 + Z.of_nat (length [(U16, 7); (I64, -1); (F32, 1078530011)]) <= cur'
      <= 1 + sum_sizeof [(U16, 7); (I64, -1); (F32, 1078530011)].
Proof.
  assert (Hr : Forall value_in_range
                 [(U16, 7); (I64, -1); (F32, 1078530011)])
    by (repeat constructor; unfold value_in_range, in_range; cbn; lia).
  split; [exact Hr | ].
  apply (pack_sequence_room [(U16, 7); (I64, -1); (F32, 1078530011)]
           (repeat Byte.x00 15) 1 Hr); cbn; lia.
Defined.

(** The Nibbler constructed over the stream of a run of pack calls. *)
Lemma Nibbler_new_packed (vs : list (ctype * Z)) (buf : buffer) (cur : Z)
      (buf' : buffer) (cur' : Z) (codes : list Z) (vals pre post : buffer) :
  Forall value_in_range vs ->
  pack_sequence vs buf cur = Some (buf', cur', codes) ->
  memcpy_from buf' cur (cur' - cur) = Some vals ->
  Z.of_nat (length vs) + 1 <= INT_MAX ->
  cur' - cur < 2 ^ 32 ->
  codes = map value_code vs /\ vals = concat (map value_bytes vs) /\
  len vals = sum_widths (map value_nibble vs) /\
  Nibbler_new (pre ++ nibble_bytes codes ++ vals ++ post) (len pre)
    (Z.of_nat (length vs))
  = Some (mkNibbler (len pre) true (Z.of_nat (length vs))
            (len (pre ++ nibble_bytes codes))
            (len (pre ++ nibble_bytes codes ++ vals))).
Proof.
  intros Hr Hp Hvals Hn Hlt.
  pose proof (pack_sequence_len _ _ _ _ _ _ Hp) as Hlen.
  pose proof (memcpy_from_length _ _ _ _ Hvals) as (Hc0 & Hc1 & Hc2 & Hlv).
  assert (Hcur : 0 <= cur <= len buf) by lia.
  destruct (pack_sequence_bytes vs _ _ _ _ _ Hr Hcur Hp) as [Hbytes _].
  rewrite Hvals in Hbytes. injection Hbytes as Hv.
  destruct (pack_sequence_codes _ _ _ _ _ _ Hp) as [Hcodes Hcur'].
  split; [exact Hcodes | ]. split; [exact Hv | ]. split; [lia | ].
  pose proof (value_nibbles_range vs) as Hc.
  assert (Hlc : length codes = length vs)
    by (rewrite Hcodes; apply length_map).
  unfold Nibbler_new. unfold INT_MAX in *.
  destruct (Z.leb_spec (Z.of_nat (length vs) + 1) (2 ^ 31 - 1)); [ | lia].
  unfold uint32_t at 1. rewrite to_unsigned_small by lia.
  rewrite <- (length_map value_nibble vs) at 1.
  rewrite (getSizeOfPackedValues_spec _ _ (map value_nibble vs));
    [ | exact Hc | ].
  2: { intros k Hk. rewrite length_map in Hk.
       rewrite nibble_at_nibble_bytes by (rewrite Hlc; exact Hk).
       now rewrite Hcodes, map_as_nibble_codes. }
  cbn [bind]. rewrite Z.quot_div_nonneg by lia.
  rewrite !len_app, length_nibble_bytes, Hlc.
  unfold uint32_t. rewrite to_unsigned_small by lia.
  do 2 f_equal. lia.
Qed.

Lemma memcpy_from_tail (a post : buffer) :
  memcpy_from (a ++ post) (len a) (len post) = Some post.
Proof.
  pose proof (memcpy_from_segment a post [] 0 (len post)) as H.
  pose proof (len_nonneg post).
  rewrite app_nil_r, Z.add_0_r in H. rewrite H by lia.
  cbn [Z.to_nat skipn]. apply f_equal, firstn_all2. unfold len. lia.
Qed.

Lemma memcpy_from_middle (a l post : buffer) :
  memcpy_from (a ++ l ++ post) (len a) (len l) = Some l.
Proof.
  pose proof (memcpy_from_segment a l post 0 (len l)) as H.
  pose proof (len_nonneg l).
  rewrite Z.add_0_r in H. rewrite H by lia.
  cbn [Z.to_nat skipn]. apply f_equal, firstn_all2. unfold len. lia.
Qed.

(** X13.  For the stream of a run of pack calls, the Nibbler starts
    reading values right after the [ceil(n/2)] nibble bytes and
    [getEndOfPackedArguments] is the offset just past the last value byte:
    what follows the packed values in the stream starts there. *)
Theorem nibbler_end_of_packed_arguments (vs : list (ctype * Z)) (buf : buffer)
        (cur : Z) (buf' : buffer) (cur' : Z) (codes : list Z)
        (vals pre post : buffer) :
  Forall value_in_range vs ->
  pack_sequence vs buf cur = Some (buf', cur', codes) ->
  memcpy_from buf' cur (cur' - cur) = Some vals ->
  Z.of_nat (length vs) + 1 <= INT_MAX ->
  cur' - cur < 2 ^ 32 ->
  exists nb,
    Nibbler_new (pre ++ nibble_bytes codes ++ vals ++ post) (len pre)
      (Z.of_nat (length vs)) = Some nb /\
    currPackedValue nb = len pre + (Z.of_nat (length vs) + 1) / 2 /\
    getEndOfPackedArguments nb = currPackedValue nb + (cur' - cur) /\
    memcpy_from (pre ++ nibble_bytes codes ++ vals ++ post)
      (getEndOfPackedArguments nb) (len post) = Some post.
Proof.
  intros Hr Hp Hvals Hn Hlt.
  pose proof (memcpy_from_length _ _ _ _ Hvals) as (_ & _ & _ & Hlv).
  destruct (Nibbler_new_packed vs buf cur buf' cur' codes vals pre post
              Hr Hp Hvals Hn Hlt) as (Hcodes & _ & _ & Hnew).
  eexists. split; [exact Hnew | ].
  cbn [currPackedValue getEndOfPackedArguments endOfValues].
  assert (Hlc : length codes = length vs)
    by (rewrite Hcodes; apply length_map).
  split; [rewrite len_app, length_nibble_bytes, Hlc; reflexivity | ].
  split; [rewrite !len_app; lia | ].
  replace (pre ++ nibble_bytes codes ++ vals ++ post)
    with ((pre ++ nibble_bytes codes ++ vals) ++ post)
    by (rewrite <- !app_assoc; reflexivity).
  apply memcpy_from_tail.
Qed.

Lemma nibbler_end_of_packed_arguments_witness :
  exists nb,
    Nibbler_new
      ([Byte.xaa] ++ nibble_bytes [2; 9; 8]
       ++ [Byte.x00; Byte.x01; Byte.x05; Byte.x1f; Byte.x85; Byte.xeb;
           Byte.x51; Byte.xb8; Byte.x1e; Byte.x09; Byte.x40]
       ++ [Byte.xbb; Byte.xcc]) (len [Byte.xaa])
      (Z.of_nat (length [(U32, 256); (I32, -5); (F64, 4614253070214989087)]))
    = Some nb /\
    currPackedValue nb
    = len [Byte.xaa]
      + (Z.of_nat (length [(U32, 256); (I32, -5);
                           (F64, 4614253070214989087)]) + 1) / 2 /\
    getEndOfPackedArguments nb = currPackedValue nb + (11 - 0) /\
    memcpy_from
      ([Byte.xaa] ++ nibble_bytes [2; 9; 8]
       ++ [Byte.x00; Byte.x01; Byte.x05; Byte.x1f; Byte.x85; Byte.xeb;
           Byte.x51; Byte.xb8; Byte.x1e; Byte.x09; Byte.x40]
       ++ [Byte.xbb; Byte.xcc])
      (getEndOfPackedArguments nb) (len [Byte.xbb; Byte.xcc])
    = Some [Byte.xbb; Byte.xcc].
Proof.
  assert (Hr : Forall value_in_range
                 [(U32, 256); (I32, -5); (F64, 4614253070214989087)])
    by (repeat constructor; unfold value_in_range, in_range; cbn; lia).
  refine (nibbler_end_of_packed_arguments
            [(U32, 256); (I32, -5); (F64, 4614253070214989087)]
            (repeat Byte.xff 16) 0 _ 11 [2; 9; 8] _ [Byte.xaa]
            [Byte.xbb; Byte.xcc] Hr _ _ _ _).
  - vm_compute. reflexivity.
  - vm_compute. reflexivity.
  - vm_compute. discriminate.
  - lia.
Defined.

(** X14.  Exhaustion: once the [n] values of a run have been read, the
    value cursor is at the end of the values and one more [getNext], of any
    type, fails its assertion; with [n = 0] the first call already does. *)
Theorem nibbler_exhausted (float_to : ctype -> Z -> Z)
        (vs : list (ctype * Z)) (buf : buffer) (cur : Z)
        (buf' : buffer) (cur' : Z) (codes : list Z) (vals pre post : buffer) :
  Forall value_in_range vs ->
  pack_sequence vs buf cur = Some (buf', cur', codes) ->
  memcpy_from buf' cur (cur' - cur) = Some vals ->
  Z.of_nat (length vs) + 1 <= INT_MAX ->
  cur' - cur < 2 ^ 32 ->
  exists nb nb',
    Nibbler_new (pre ++ nibble_bytes codes ++ vals ++ post) (len pre)
      (Z.of_nat (length vs)) = Some nb /\
    getNext_sequence float_to
      (pre ++ nibble_bytes codes ++ vals ++ post) (map fst vs) nb
    = Some (map snd vs, nb') /\
    forall T,
      getNext float_to (pre ++ nibble_bytes codes ++ vals ++ post) T nb'
      = None.
Proof.
  intros Hr Hp Hvals Hn Hlt.
  destruct (Nibbler_new_packed vs buf cur buf' cur' codes vals pre post
              Hr Hp Hvals Hn Hlt) as (Hcodes & Hv & Hlv & Hnew).
  assert (Hlc : length codes = length vs)
    by (rewrite Hcodes; apply length_map).
  set (mem := pre ++ nibble_bytes codes ++ vals ++ post) in *.
  set (n := Z.of_nat (length vs)) in *.
  pose proof (getNext_sequence_spec float_to mem (len pre) n
                (len (pre ++ nibble_bytes codes ++ vals)) vs 0
                (len (pre ++ nibble_bytes codes))) as Hseq.
  change (0 / 2) with 0 in Hseq. change (Z.even 0) with true in Hseq.
  rewrite Z.add_0_r in Hseq.
  rewrite Hnew. do 2 eexists. split; [reflexivity | ].
  rewrite Hseq.
  - split; [reflexivity | ].
    intros T. unfold getNext.
    cbn [currPackedValue endOfValues].
    destruct (Z.ltb_spec
                (len (pre ++ nibble_bytes codes)
                 + sum_widths (map value_nibble vs))
                (len (pre ++ nibble_bytes codes ++ vals)));
      [ | reflexivity].
    rewrite !len_app in *. lia.
  - lia.
  - exact Hr.
  - rewrite !len_app. lia.
  - rewrite <- Hlv, <- Hv. unfold mem.
    replace (pre ++ nibble_bytes codes ++ vals ++ post)
      with ((pre ++ nibble_bytes codes) ++ vals ++ post)
      by (rewrite <- !app_assoc; reflexivity).
    apply memcpy_from_middle.
  - intros j Hj. rewrite Z.add_0_l. unfold mem.
    rewrite nibble_at_nibble_bytes by lia.
    now rewrite Nat2Z.id, Hcodes, map_as_nibble_codes.
Qed.

Lemma nibbler_exhausted_witness :
  exists nb nb',
    Nibbler_new ([] ++ nibble_bytes [9] ++ [Byte.x05] ++ [Byte.xbb]) (len [])
      (Z.of_nat (length [(I32, -5)])) = Some nb /\
    getNext_sequence (fun _ z => z)
      ([] ++ nibble_bytes [9] ++ [Byte.x05] ++ [Byte.xbb])
      (map fst [(I32, -5)]) nb
    = Some (map snd [(I32, -5)], nb') /\
    forall T,
      getNext (fun _ z => z)
        ([] ++ nibble_bytes [9] ++ [Byte.x05] ++ [Byte.xbb]) T nb'
      = None.
Proof.
  assert (Hr : Forall value_in_range [(I32, -5)])
    by (repeat constructor; unfold value_in_range, in_range; cbn; lia).
  refine (nibbler_exhausted (fun _ z => z) [(I32, -5)] (repeat Byte.xff 4) 0
            _ 1 [9] _ [] [Byte.xbb] Hr _ _ _ _).
  - vm_compute. reflexivity.
  - vm_compute. reflexivity.
  - vm_compute. discriminate.
  - lia.
Defined.

(** A value returned by [unpack] for a nibble was read from at most
    sixteen bytes, and from at most eight unless the type is
    [long double]; no byte is consumed only for the nibble 0 decoded with an
    integral or a pointer type. *)
Lemma unpack_value_advance (float_to : ctype -> Z -> Z) (T : ctype)
      (mem : buffer) (cur c v cur' : Z) :
  0 <= c <= 15 -> unpack float_to T mem cur c = Some (Some v, cur') ->
  cur <= cur' <= cur + 16 /\
  (T <> LDouble -> cur' <= cur + 8) /\
  (cur' = cur -> is_floating_point T = false /\ c = 0).
Proof.
  intros Hc Hv. destruct (is_floating_point T) eqn:HF.
  - assert (Hu : unpack float_to T mem cur c
                 = unpack_floating float_to T mem cur c)
      by (destruct T; try discriminate; reflexivity).
    rewrite Hu in Hv. unfold unpack_floating in Hv.
    change (sizeof F32) with 4 in Hv.
    destruct (Z.eqb_spec c 4).
    { injection Hv as _ <-. repeat split; intros; lia. }
    destruct (Z.ltb_spec (sizeof T) (if c =? 0 then 16 else c));
      [discriminate | ].
    destruct (Z.eqb_spec (if c =? 0 then 16 else c) (sizeof T)) as [E | E];
      [ | discriminate].
    injection Hv as _ <-. rewrite E.
    repeat split; try (intros; destruct (sizeof_cases T); lia).
    intros HL. destruct T; try discriminate; cbn [sizeof]; try lia.
    now elim HL.
  - rewrite unpack_not_floating in Hv by exact HF.
    pose proof (unpack_integral_advance T mem cur c Hc) as Ha.
    injection Hv as Hv. rewrite Hv in Ha. cbn [snd] in Ha. subst cur'.
    pose proof (nibble_width_range c Hc) as Hw. unfold nibble_width in *.
    destruct (Z.eqb_spec c 0);
      [repeat split; intros; try reflexivity; lia | ].
    destruct (Z.leb_spec c 8); repeat split; intros; try reflexivity; lia.
Qed.

(** X15.  One [getNext] that returns: the assertion held, the end of the
    values and the count of nibbles are kept, the other half of the byte is
    selected, the nibble position moves to the next byte exactly after a
    second half, and the value cursor has moved forward by at most sixteen
    bytes, by at most eight unless the type is [long double]; it has not
    moved at all only when the nibble read was 0 and the type is integral
    or a pointer. *)
Theorem getNext_step (float_to : ctype -> Z -> Z) (mem : buffer) (T : ctype)
        (nb : Nibbler) (v : Z) (nb' : Nibbler) :
  getNext float_to mem T nb = Some (v, nb') ->
  currPackedValue nb < endOfValues nb /\
  endOfValues nb' = endOfValues nb /\ numNibbles nb' = numNibbles nb /\
  onFirstNibble nb' = negb (onFirstNibble nb) /\
  nibblePosition nb'
  = nibblePosition nb + (if onFirstNibble nb then 0 else 1) /\
  currPackedValue nb <= currPackedValue nb' <= currPackedValue nb + 16 /\
  (T <> LDouble -> currPackedValue nb' <= currPackedValue nb + 8) /\
  (currPackedValue nb' = currPackedValue nb ->
   is_floating_point T = false /\
   nibble_at mem (nibblePosition nb) (if onFirstNibble nb then 0 else 1)
   = Some 0).
Proof.
  unfold getNext.
  destruct (Z.ltb_spec (currPackedValue nb) (endOfValues nb)) as [Hlt | ];
    [ | discriminate].
  assert (Hna : nibble_at mem (nibblePosition nb)
                  (if onFirstNibble nb then 0 else 1)
                = b <- byte_at mem (nibblePosition nb) ;;
                  Some (if onFirstNibble nb then first b else second b)).
  { unfold nibble_at. destruct (onFirstNibble nb).
    - change (0 / 2) with 0. rewrite Z.add_0_r. reflexivity.
    - change (1 / 2) with 0. rewrite Z.add_0_r. reflexivity. }
  rewrite Hna.
  destruct (byte_at mem (nibblePosition nb)) as [b | ]; cbn [bind];
    [ | discriminate].
  set (nibble := if onFirstNibble nb then first b else second b).
  assert (Hn : 0 <= nibble <= 15)
    by (unfold nibble; destruct (onFirstNibble nb);
        [apply first_range | apply second_range]).
  pose proof (unpack_value_advance float_to T mem
                (currPackedValue nb) nibble) as Hadv.
  destruct (unpack float_to T mem (currPackedValue nb) nibble)
    as [[ret cur'] | ]; cbn [bind]; [ | discriminate].
  destruct ret as [x | ]; cbn [bind]; [ | discriminate].
  intros E. injection E as <- <-.
  destruct (Hadv x cur' Hn eq_refl) as (Hb & H8 & Hz).
  cbn [endOfValues numNibbles onFirstNibble nibblePosition currPackedValue].
  split; [exact Hlt | ]. split; [reflexivity | ]. split; [reflexivity | ].
  split; [reflexivity | ].
  split; [destruct (onFirstNibble nb); lia | ].
  split; [exact Hb | ]. split; [exact H8 | ].
  intros Hsame. destruct (Hz Hsame) as [HF H0].
  split; [exact HF | now rewrite <- H0].
Qed.

Lemma getNext_step_witness :
  1 < 4 /\ 4 = 4 /\ 3 = 3 /\ false = negb true /\
  0 = 0 + (if true then 0 else 1) /\ 1 <= 3 <= 1 + 16 /\
  (U32 <> LDouble -> 3 <= 1 + 8) /\
  (3 = 1 ->
   is_floating_point U32 = false /\
   nibble_at [Byte.x12; Byte.x00; Byte.x01; Byte.x07] 0
     (if true then 0 else 1) = Some 0).
Proof.
  apply (getNext_step (fun _ z => z)
           [Byte.x12; Byte.x00; Byte.x01; Byte.x07] U32
           (mkNibbler 0 true 3 1 4) 256 (mkNibbler 0 false 3 3 4)).
  reflexivity.
Defined.

End BufferUtils.
